(** * Scheduling a doubles pickleball tournament

    A shallow embedding of the scheduling code of the notebook
    [ipynb/Pickleball.ipynb] (functions [all_pairs], [games_from_pairs],
    [schedule_games], [players], [opponent_counts], [total_difference],
    [is_optimal], [swap], [tournament], [tournament2], [name] and
    [str_from_round]) together with the properties of its specification
    and further properties of the code.

    Conventions of the embedding:
    - a Python [int] is a [Z]; a list index and a length is a [nat];
    - a [Pair] (a 2-tuple of players) is a [Z * Z], a [Game] (a 2-slot list
      of pairs) is a [Pair * Pair], a round is a list of games and a
      schedule a list of rounds;
    - a Python [set] of players is a [gset Z], a [Counter] is a [gmap] whose
      missing keys read as zero;
    - the value [None] returned by [games_from_pairs] is [None : option _];
    - an exception that leaves a top-level function is the [Raise] case of
      the type [result];
    - the outcomes of the calls to [random] are an input of [tournament2]. *)

From stdpp Require Import gmap list fin_maps sorting strings.

Open Scope Z_scope.

(** ** Vocabulary *)

Definition Player : Type := Z.
Definition Pair : Type := (Player * Player)%type.
Definition Game : Type := (Pair * Pair)%type.

(** The exceptions the modelled code can raise, and a computation that
    either returns a value or raises. *)
Inductive exn : Type :=
  | TypeError          (* iterating over None *)
  | ValueError         (* random.sample: sample larger than population *)
  | IndexError         (* list index out of range *)
  | ZeroDivisionError. (* float division by zero *)

Inductive result (A : Type) : Type :=
  | Ok (a : A)
  | Raise (e : exn).
Arguments Ok {A} a.
Arguments Raise {A} e.

#[global] Instance result_bind : MBind result := λ A B k m,
  match m with
  | Ok a => k a
  | Raise e => Raise e
  end.

#[global] Instance exn_eq_dec : EqDecision exn.
Proof. solve_decision. Defined.

#[global] Instance result_eq_dec {A} `{EqDecision A} : EqDecision (result A).
Proof. solve_decision. Defined.

(** ** Generating pairs of players *)

(** [range(lo, hi)]. *)
Definition range (lo hi : Z) : list Z := seqZ lo (hi - lo).

(** [combinations(l, 2)]: the pairs of elements of [l] at increasing
    positions, in lexicographic order of the positions. *)
Fixpoint combinations2 {A} (l : list A) : list (A * A) :=
  match l with
  | [] => []
  | x :: r => (pair x <$> r) ++ combinations2 r
  end.

Definition all_pairs (P : Z) : list Pair := combinations2 (range 1 (P + 1)).

(** ** Placing pairs into games *)

(** [players(x)] for a pair, a game, and a list of items whose players are
    given by [pl] (a round is a list of games, a schedule a list of
    rounds). *)
Definition players_pair (p : Pair) : gset Player := {[ p.1; p.2 ]}.
Definition players_game (g : Game) : gset Player :=
  players_pair g.1 ∪ players_pair g.2.
Definition players_list {A} (pl : A → gset Player) (xs : list A) : gset Player :=
  ⋃ (pl <$> xs).

(** [len(set(pair1 + pair2)) == 4]. *)
Definition four_distinct (pair1 pair2 : Pair) : bool :=
  bool_decide (size (list_to_set [pair1.1; pair1.2; pair2.1; pair2.2] : gset Player) = 4%nat).

(** [[p for p in pairs if p != pair1 and p != pair2]]. *)
Definition without (pair1 pair2 : Pair) (pairs : list Pair) : list Pair :=
  filter (λ p, p ≠ pair1 ∧ p ≠ pair2) pairs.

(** The loop [for pair2 in pairs] of [games_from_pairs], over the pairs
    [cands] still to be tried; [rec] is the recursive call. *)
Fixpoint try_pair2 (rec : list Pair → option (list Game))
    (pair1 : Pair) (pairs cands : list Pair) : option (list Game) :=
  match cands with
  | [] => None
  | pair2 :: cands' =>
      if four_distinct pair1 pair2 then
        match rec (without pair1 pair2 pairs) with
        | Some other_games => Some ((pair1, pair2) :: other_games)
        | None => try_pair2 rec pair1 pairs cands'
        end
      else try_pair2 rec pair1 pairs cands'
  end.

(** [games_from_pairs] with a bound [n] on the depth of the recursion; the
    list shrinks at every call, so [length pairs] is deep enough
    ([games_from_pairs_unfold] below). *)
Fixpoint games_from_pairs_depth (n : nat) (pairs : list Pair) : option (list Game) :=
  if decide (length pairs < 2)%nat then Some []
  else
    match n, pairs with
    | S n', pair1 :: _ => try_pair2 (games_from_pairs_depth n') pair1 pairs pairs
    | _, _ => None
    end.

Definition games_from_pairs (pairs : list Pair) : option (list Game) :=
  games_from_pairs_depth (length pairs) pairs.

(** ** Scheduling games into rounds on courts *)

Section schedule.
(** The items scheduled are games, or references to games held in a
    store; [pl] gives the players of an item. *)
Context {A : Type} (pl : A → gset Player).

(** The condition of the generator in [schedule_games]. *)
Definition fits (C : Z) (game : A) (round : list A) : Prop :=
  Z.of_nat (length round) < C ∧ players_list pl round ∩ pl game = ∅.

#[global] Instance fits_dec C game round : Decision (fits C game round).
Proof. unfold fits. apply _. Defined.

(** One iteration of the loop of [schedule_games]: [first] gives the first
    round that fits, if any; a new round is appended when there is none
    (or when the round found is empty, which is falsy). *)
Definition place (C : Z) (schedule : list (list A)) (game : A) : list (list A) :=
  match list_find (fits C game) schedule with
  | Some (k, _ :: _) => alter (λ round, round ++ [game]) k schedule
  | _ => schedule ++ [[game]]
  end.

Definition schedule_games (games : list A) (C : Z) : list (list A) :=
  foldl (place C) [] games.
End schedule.

(** ** The plain tournament *)

Definition tournament (P : Z) (C : Z) : result (list (list Game)) :=
  match games_from_pairs (all_pairs P) with
  | Some games => Ok (schedule_games players_game games C)
  | None => Raise TypeError
  end.

(** ** Metrics *)

(** [pairing(p1, p2)]: the sorted tuple. *)
Definition pairing (p1 p2 : Player) : Player * Player :=
  if decide (p1 ≤ p2) then (p1, p2) else (p2, p1).

(** [Counter(keys)]: every key of the iterable adds one to its count; a key
    that is absent reads as zero. *)
Definition count_of `{Countable K} (c : gmap K Z) (k : K) : Z := default 0 (c !! k).

Definition Counter `{Countable K} (keys : list K) : gmap K Z :=
  foldl (λ c k, <[k := count_of c k + 1]> c) ∅ keys.

(** The keys counted by [opponent_counts]:
    [pairing(p1, p2) for A, B in games for p1 in A for p2 in B]. *)
Definition oppositions (games : list Game) : list (Player * Player) :=
  games ≫= λ '((a1, a2), (b1, b2)),
    [pairing a1 b1; pairing a1 b2; pairing a2 b1; pairing a2 b2].

Definition opponent_counts (games : list Game) : gmap (Player * Player) Z :=
  Counter (oppositions games).

(** [sum(abs(count - optimal) ** 3 for count in opponent_counts(games).values())]. *)
Definition total_difference (games : list Game) (optimal : Z) : Z :=
  map_fold (λ _ count acc, acc + Z.abs (count - optimal) ^ 3) 0 (opponent_counts games).

(** [math.ceil(a / b)] for integers [a] and [b ≠ 0]. *)
Definition ceil_div (a b : Z) : Z := - ((- a) / b).

(** [diff == 0 and len(schedule) == math.ceil(P * (P - 1) / 4 / C)]. The
    quotient is taken exactly; the floating-point quotients of the source
    give the same ceiling as long as [P * (P - 1) < 2 ^ 53]. The division
    is evaluated only when [diff] is zero, and raises when [C] is zero. *)
Definition is_optimal {A} (schedule : list (list A)) (diff P C : Z) : result bool :=
  if decide (diff = 0) then
    if decide (C = 0) then Raise ZeroDivisionError
    else Ok (bool_decide (Z.of_nat (length schedule) = ceil_div (P * (P - 1)) (4 * C)))
  else Ok false.

(** ** Improving a schedule through hillclimbing *)

(** The two slots of a game; [side()] gives [false] for 0 and [true] for 1. *)
Definition side_get (g : Game) (s : bool) : Pair := if s then g.2 else g.1.
Definition side_set (g : Game) (s : bool) (p : Pair) : Game :=
  if s then (g.1, p) else (p, g.2).

(** [games[g]]. *)
Definition getitem (games : list Game) (g : nat) : result Game :=
  match games !! g with
  | Some x => Ok x
  | None => Raise IndexError
  end.

(** [games[g1][s1], games[g2][s2] = games[g2][s2], games[g1][s1]]: both
    right-hand sides are read, then the two slots are written in turn. The
    list [games] is the store of the game objects: the object at position
    [g] is updated in place. *)
Definition swap (games : list Game) (idx : (nat * nat) * (bool * bool)) : result (list Game) :=
  let '((g1, g2), (s1, s2)) := idx in
  x2 ← getitem games g2;
  x1 ← getitem games g1;
  let games' := <[g1 := side_set x1 s1 (side_get x2 s2)]> games in
  y2 ← getitem games' g2;
  Ok (<[g2 := side_set y2 s2 (side_get x1 s1)]> games').

(** The rounds built by [schedule_games(games, C)] hold the game objects of
    the list [games] themselves, not copies: a round is a list of
    references (positions in the store [games]), and the players of a
    reference are read through the store. *)
Definition deref (games : list Game) (r : nat) : Game := games !!! r.

Definition sched_refs (games : list Game) (C : Z) : list (list nat) :=
  schedule_games (λ r, players_game (deref games r)) (seq 0 (length games)) C.

(** The schedule value seen through the store. *)
Definition view (games : list Game) (sched : list (list nat)) : list (list Game) :=
  (λ round : list nat, deref games <$> round) <$> sched.

(** The variables of [tournament2]. *)
Record state : Type := State {
  games : list Game;
  sched : list (list nat);
  diff : Z
}.

(** What the random generator returns in one iteration:
    [random.sample(range(len(games)), 2)] and the two calls of [side()]. *)
Record draw : Type := Draw {
  sample : nat * nat;
  sides : bool * bool
}.

(** The test that decides whether a swap is kept. *)
Definition keeps (C : Z) (st : state) (i j : nat) (games1 : list Game) : result bool :=
  if bool_decide (total_difference games1 2 ≤ diff st) then
    gi ← getitem games1 i;
    if bool_decide (size (players_game gi) = 4%nat) then
      gj ← getitem games1 j;
      if bool_decide (4%nat = size (players_game gj)) then
        Ok (bool_decide (length (sched_refs games1 C) ≤ length (sched st))%nat)
      else Ok false
    else Ok false
  else Ok false.

(** The body of the loop of [tournament2] after the test [is_optimal]. *)
Definition iteration (C : Z) (d : draw) (st : state) : result state :=
  if decide (length (games st) < 2)%nat then Raise ValueError
  else
    let idx := (sample d, sides d) in
    games1 ← swap (games st) idx;
    keep ← keeps C st (sample d).1 (sample d).2 games1;
    if (keep : bool) then
      Ok (State games1 (sched_refs games1 C) (total_difference games1 2))
    else
      games2 ← swap games1 idx;
      Ok (State games2 (sched st) (diff st)).

(** The loop [for _ in range(tries)]; [rnd k] is the draw of iteration [k]. *)
Fixpoint loop (P C : Z) (tries : nat) (rnd : nat → draw) (st : state) : result state :=
  match tries with
  | O => Ok st
  | S tries' =>
      opt ← is_optimal (sched st) (diff st) P C;
      if (opt : bool) then Ok st
      else st' ← iteration C (rnd O) st; loop P C tries' (λ k, rnd (S k)) st'
  end.

Definition initial (games : list Game) (C : Z) : state :=
  State games (sched_refs games C) (total_difference games 2).

Definition tournament2 (P C tries : Z) (rnd : nat → draw) : result (list (list Game)) :=
  match games_from_pairs (all_pairs P) with
  | Some games0 =>
      st ← loop P C (Z.to_nat tries) rnd (initial games0 C);
      Ok (view (games st) (sched st))
  | None => Raise TypeError
  end.

(** ** Visualizing a schedule *)

(** [s[i]] for a string [s] and an integer [i]: a negative index counts
    from the end, an index outside the string raises. *)
Definition str_index (s : string) (i : Z) : result Ascii.ascii :=
  let n := Z.of_nat (String.length s) in
  let j := if decide (i < 0) then i + n else i in
  if decide (0 ≤ j < n) then
    match String.get (Z.to_nat j) s with
    | Some c => Ok c
    | None => Raise IndexError
    end
  else Raise IndexError.

Definition alphabet : string := "0123456789ABCDEFGHIJKLMNOPQRSTUVWXYZ".

(** [name(player)]: a one-character string. *)
Definition name (player : Player) : result string :=
  c ← str_index alphabet player; Ok (String c EmptyString).

(** [f'{name(a)},{name(b)} vs {name(c)},{name(d)}']. *)
Definition str_from_game (g : Game) : result string :=
  let '((a, b), (c, d)) := g in
  na ← name a; nb ← name b; nc ← name c; nd ← name d;
  Ok (na +:+ "," +:+ nb +:+ " vs " +:+ nc +:+ "," +:+ nd)%string.

(** [sep.join(strs)]. *)
Fixpoint join (sep : string) (strs : list string) : string :=
  match strs with
  | [] => ""
  | [x] => x
  | x :: rest => x +:+ sep +:+ join sep rest
  end.

(** The strings of the generator in [str_from_round], game after game. *)
Fixpoint strs_from_round (round : list Game) : result (list string) :=
  match round with
  | [] => Ok []
  | g :: rest => x ← str_from_game g; xs ← strs_from_round rest; Ok (x :: xs)
  end.

Definition str_from_round (round : list Game) : result string :=
  strs ← strs_from_round round; Ok (join " | " strs).

(** * Vocabulary of the properties *)

(** ** Rounds *)

Section rounds.
Context {A : Type} (pl : A → gset Player).

(** No player appears in two items of the round. *)
Definition disjoint_round (round : list A) : Prop :=
  ∀ i j x y, i ≠ j → round !! i = Some x → round !! j = Some y → pl x ## pl y.

(** The round has at most [C] items and no player appears twice in it. *)
Definition round_ok (C : Z) (round : list A) : Prop :=
  Z.of_nat (length round) ≤ C ∧ disjoint_round round.

(** First fit: no item sits in a round when an earlier round of the
    schedule could take it. *)
Definition first_fit (C : Z) (s : list (list A)) : Prop :=
  ∀ j k rj rk x, (j < k)%nat → s !! j = Some rj → s !! k = Some rk → x ∈ rk →
                 ¬ fits pl C x rj.

End rounds.

(** ** Opponents *)

(** How many times the key [k] is produced by the iterable [keys]. *)
Definition occurrences `{EqDecision K} (k : K) (keys : list K) : Z :=
  Z.of_nat (length (filter (k =.) keys)).

(** [opp[pairing(p, q)]]: how many times [p] and [q] are on opposite sides. *)
Definition opposed (games : list Game) (p q : Player) : Z :=
  count_of (opponent_counts games) (pairing p q).

(** The reading of the specification: every two distinct players that take
    part in the games oppose each other exactly twice. *)
Definition participants_opposed_twice (games0 : list Game) : Prop :=
  ∀ p q, p ∈ players_list players_game games0 →
         q ∈ players_list players_game games0 →
         p ≠ q → opposed games0 p q = 2.

(** [sum(c.values())]: the counts of a table added up. *)
Definition total_count `{Countable K} (c : gmap K Z) : Z :=
  map_fold (λ _ count acc, acc + count) 0 c.

(** [sum(counts)] for a list of integers. *)
Definition sum_Z (counts : list Z) : Z := foldr Z.add 0 counts.

(** [sum(counts)] in [report]: the row of the player [row] in the table of
    opponent counts, added over the columns [people]. *)
Definition row_sum (games : list Game) (people : list Player) (row : Player) : Z :=
  sum_Z ((λ col, opposed games row col) <$> people).

(** The number of games the player [p] plays in. *)
Definition games_played (games : list Game) (p : Player) : Z :=
  Z.of_nat (length (filter (λ g, p ∈ players_game g) games)).

(** The row sum read off the list of oppositions instead of the table. *)
Definition keys_sum (people : list Player) (row : Player)
    (keys : list (Player * Player)) : Z :=
  sum_Z ((λ col, occurrences (pairing row col) keys) <$> people).

(** 1 when the proposition holds, 0 otherwise. *)
Definition indicator (P : Prop) `{Decision P} : Z := if decide P then 1 else 0.

(** ** Partners *)

(** The partner pairs spread across a game list, game after game. *)
Definition partners (games : list Game) : list Pair :=
  games ≫= λ g, [g.1; g.2].

(** The players [a] and [b] are partners in the game [g], whichever way
    round the pair is written. *)
Definition partnered (a b : Player) (g : Game) : Prop :=
  g.1 = (a, b) ∨ g.1 = (b, a) ∨ g.2 = (a, b) ∨ g.2 = (b, a).

#[global] Instance partnered_dec a b g : Decision (partnered a b g).
Proof. unfold partnered. apply _. Defined.

(** The number of games in which [a] and [b] are partners. *)
Definition partner_games (games0 : list Game) (a b : Player) : nat :=
  length (filter (partnered a b) games0).

(** Every pair of players of [1..P] partners in exactly one game. *)
Definition covers_all (P : Z) (games0 : list Game) : Prop :=
  ∀ a b, 1 ≤ a < b ∧ b ≤ P → partner_games games0 a b = 1%nat.

(** Exactly one pair of players of [1..P] never partners, every other pair
    partners in exactly one game. *)
Definition covers_all_but_one (P : Z) (games0 : list Game) : Prop :=
  ∃ a0 b0, (1 ≤ a0 < b0 ∧ b0 ≤ P) ∧ partner_games games0 a0 b0 = 0%nat ∧
    ∀ a b, 1 ≤ a < b ∧ b ≤ P → (a, b) ≠ (a0, b0) → partner_games games0 a b = 1%nat.

Definition partner_coverage (P : Z) (games0 : list Game) : Prop :=
  if decide ((P * (P - 1)) mod 4 = 0) then covers_all P games0
  else covers_all_but_one P games0.

(** ** Order of enumeration and packings *)

(** The lexicographic order of tuples. *)
Definition pair_lt (p q : Pair) : Prop := p.1 < q.1 ∨ (p.1 = q.1 ∧ p.2 < q.2).

(** A game between four different players. *)
Definition valid_game (g : Game) : Prop := size (players_game g) = 4%nat.

(** The games [games0] use every pair of [pairs] once and leave none over. *)
Definition packing (pairs : list Pair) (games0 : list Game) : Prop :=
  Forall valid_game games0 ∧ partners games0 ≡ₚ pairs.

(** ** Names *)

(** The players that [name] writes with one of the 36 characters, counted
    from the start of the alphabet. *)
Definition has_name (p : Player) : Prop := 0 ≤ p ≤ 35.

Definition named_game (g : Game) : Prop :=
  has_name g.1.1 ∧ has_name g.1.2 ∧ has_name g.2.1 ∧ has_name g.2.2.

(** The character of a player that has a name. *)
Definition char_of (p : Player) : Ascii.ascii :=
  match name p with
  | Ok (String c _) => c
  | _ => Ascii.zero
  end.

(** The ten characters written for a game. *)
Definition game_chars (g : Game) : string :=
  (String (char_of g.1.1) "" +:+ "," +:+ String (char_of g.1.2) "" +:+ " vs "
   +:+ String (char_of g.2.1) "" +:+ "," +:+ String (char_of g.2.2) "")%string.

(** ** States of the hillclimbing loop *)

(** The condition under which the swapped game list [games1] is kept. *)
Definition acceptable (C : Z) (st : state) (i j : nat) (games1 : list Game) : Prop :=
  total_difference games1 2 ≤ diff st ∧
  (∃ gi, games1 !! i = Some gi ∧ size (players_game gi) = 4%nat) ∧
  (∃ gj, games1 !! j = Some gj ∧ size (players_game gj) = 4%nat) ∧
  (length (sched_refs games1 C) ≤ length (sched st))%nat.

(** The schedule and the score stored in a state are those of its games. *)
Definition coherent (C : Z) (st : state) : Prop :=
  sched st = sched_refs (games st) C ∧ diff st = total_difference (games st) 2.


(** ** Concrete inputs *)

Definition games_8 : list Game :=
  [((1, 2), (3, 4)); ((1, 3), (2, 4)); ((1, 4), (2, 3)); ((1, 5), (2, 6));
   ((1, 6), (2, 5)); ((1, 7), (2, 8)); ((1, 8), (2, 7)); ((3, 5), (4, 6));
   ((3, 6), (4, 5)); ((3, 7), (4, 8)); ((3, 8), (4, 7)); ((5, 6), (7, 8));
   ((5, 7), (6, 8)); ((5, 8), (6, 7))].

(** Draws that swap the second pair of game 0 with the first pair of game
    11, then two pairs of games 3 and 4. *)
Definition draws_8 (k : nat) : draw :=
  match k with
  | O => Draw (0%nat, 11%nat) (true, false)
  | _ => Draw (3%nat, 4%nat) (true, true)
  end.

(** * Properties *)

(** ** The examples of the notebook *)

Example all_pairs_4 :
  all_pairs 4 = [(1, 2); (1, 3); (1, 4); (2, 3); (2, 4); (3, 4)].
Proof. reflexivity. Qed.

Example games_6 :
  games_from_pairs (all_pairs 6) =
  Some [((1, 2), (3, 4)); ((1, 3), (2, 4)); ((1, 4), (2, 3)); ((1, 5), (2, 6));
        ((1, 6), (2, 5)); ((3, 5), (4, 6)); ((3, 6), (4, 5))].
Proof. vm_compute. reflexivity. Qed.

Example tournament_8_2 :
  tournament 8 2 =
  Ok [[((1, 2), (3, 4)); ((5, 6), (7, 8))];
      [((1, 3), (2, 4)); ((5, 7), (6, 8))];
      [((1, 4), (2, 3)); ((5, 8), (6, 7))];
      [((1, 5), (2, 6)); ((3, 7), (4, 8))];
      [((1, 6), (2, 5)); ((3, 8), (4, 7))];
      [((1, 7), (2, 8)); ((3, 5), (4, 6))];
      [((1, 8), (2, 7)); ((3, 6), (4, 5))]].
Proof. vm_compute. reflexivity. Qed.

Example games_from_pairs_8 : games_from_pairs (all_pairs 8) = Some games_8.
Proof. vm_compute. reflexivity. Qed.

(** The score of the plain schedule for eight players: sixteen pairs meet
    once, eight twice and four six times. *)
Example total_difference_8 : total_difference games_8 2 = 272.
Proof. by vm_compute. Qed.

(** With two players there is no game to sample from: the first iteration
    of [tournament2] ends in the [ValueError] of [random.sample]. *)
Example tournament2_two_players rnd : tournament2 2 1 1 rnd = Raise ValueError.
Proof. by vm_compute. Qed.

(** The first round of the schedule for eight players, as [report]
    prints it. *)
Example str_from_round_8 :
  str_from_round [((1, 2), (3, 4)); ((5, 6), (7, 8))] = Ok "1,2 vs 3,4 | 5,6 vs 7,8"%string.
Proof. by vm_compute. Qed.

(** ** The recursion of [games_from_pairs] *)

Lemma try_pair2_ext rec1 rec2 pair1 pairs cands :
  (∀ pair2, pair2 ∈ cands →
     rec1 (without pair1 pair2 pairs) = rec2 (without pair1 pair2 pairs)) →
  try_pair2 rec1 pair1 pairs cands = try_pair2 rec2 pair1 pairs cands.
Proof.
  induction cands as [|pair2 cands IH]; intros Hrec; simpl; [done|].
  rewrite IH; [|intros q Hq; apply Hrec; by right].
  destruct (four_distinct pair1 pair2); [|done].
  rewrite Hrec; [done|by left].
Qed.

Lemma without_shorter pair1 pair2 rest :
  (length (without pair1 pair2 (pair1 :: rest)) ≤ length rest)%nat.
Proof.
  unfold without. rewrite filter_cons_False; [apply length_filter|].
  by intros [? _].
Qed.

Lemma games_from_pairs_depth_irrel n m pairs :
  (length pairs ≤ n)%nat → (length pairs ≤ m)%nat →
  games_from_pairs_depth n pairs = games_from_pairs_depth m pairs.
Proof.
  revert m pairs. induction n as [|n IH]; intros m pairs Hn Hm.
  - destruct pairs; [|simpl in Hn; lia]. by destruct m.
  - destruct m as [|m]; [destruct pairs; [done|simpl in Hm; lia]|].
    simpl. destruct (decide (length pairs < 2)%nat); [done|].
    destruct pairs as [|pair1 rest]; [done|].
    apply try_pair2_ext. intros pair2 _.
    pose proof (without_shorter pair1 pair2 rest). simpl in Hn, Hm.
    apply IH; lia.
Qed.

(** The defining equation of the source: the bound on the depth is never
    reached. *)
Lemma games_from_pairs_unfold pairs :
  games_from_pairs pairs =
  if decide (length pairs < 2)%nat then Some []
  else match pairs with
       | pair1 :: _ => try_pair2 games_from_pairs pair1 pairs pairs
       | [] => None
       end.
Proof.
  unfold games_from_pairs at 1.
  destruct pairs as [|pair1 rest]; [done|].
  cbn [games_from_pairs_depth length].
  destruct (decide (S (length rest) < 2)%nat); [done|].
  apply try_pair2_ext. intros pair2 _.
  apply games_from_pairs_depth_irrel; [apply without_shorter|done].
Qed.

(** ** Scheduling through references *)

Section schedule_fmap.
Context {A B : Type} (pl : A → gset Player) (f : B → A).

Lemma players_list_fmap (xs : list B) :
  players_list pl (f <$> xs) = players_list (pl ∘ f) xs.
Proof. unfold players_list. by rewrite <-list_fmap_compose. Qed.

Lemma fits_fmap C (x : B) (round : list B) :
  fits pl C (f x) (f <$> round) ↔ fits (pl ∘ f) C x round.
Proof. unfold fits. by rewrite length_fmap, players_list_fmap. Qed.

Lemma place_fmap C (s : list (list B)) (x : B) :
  place pl C (fmap (M:=list) f <$> s) (f x) = fmap (M:=list) f <$> place (pl ∘ f) C s x.
Proof.
  unfold place. rewrite list_find_fmap.
  rewrite (list_find_ext _ (fits (pl ∘ f) C x)) by apply fits_fmap.
  destruct (list_find (fits (pl ∘ f) C x) s) as [[k [|y round]]|]; simpl.
  - by rewrite fmap_app.
  - symmetry. apply list_fmap_alter, Forall_forall. intros r _.
    by rewrite fmap_app.
  - by rewrite fmap_app.
Qed.

Lemma schedule_games_fmap C (xs : list B) :
  schedule_games pl (f <$> xs) C = fmap (M:=list) f <$> schedule_games (pl ∘ f) xs C.
Proof.
  unfold schedule_games.
  change (@nil (list A)) with (fmap (M:=list) f <$> @nil (list B)).
  generalize (@nil (list B)) as s.
  induction xs as [|x xs IH]; intros s; simpl; [done|].
  by rewrite place_fmap, IH.
Qed.
End schedule_fmap.

Lemma deref_seq (games0 : list Game) :
  deref games0 <$> seq 0 (length games0) = games0.
Proof.
  apply list_eq. intros i. rewrite list_lookup_fmap.
  destruct (decide (i < length games0)%nat) as [Hi|Hi].
  - rewrite lookup_seq_lt by done. simpl. unfold deref.
    destruct (lookup_lt_is_Some_2 games0 i Hi) as [g Hg].
    by rewrite (list_lookup_total_correct _ _ _ Hg).
  - rewrite lookup_seq_ge by lia. rewrite lookup_ge_None_2 by lia. done.
Qed.

(** The schedule built over the references, read through the store it was
    built from, is the schedule built over the games. *)
Lemma view_sched_refs (games0 : list Game) C :
  view games0 (sched_refs games0 C) = schedule_games players_game games0 C.
Proof.
  unfold view, sched_refs.
  transitivity (schedule_games players_game (deref games0 <$> seq 0 (length games0)) C);
    [|by rewrite deref_seq].
  by rewrite schedule_games_fmap.
Qed.

Lemma tournament2_no_tries P C tries rnd :
  tries ≤ 0 → tournament2 P C tries rnd = tournament P C.
Proof.
  intros Ht. unfold tournament2, tournament.
  destruct (games_from_pairs (all_pairs P)) as [games0|]; [|done].
  replace (Z.to_nat tries) with O by lia. simpl.
  by rewrite view_sched_refs.
Qed.

(** ** Courts that hold at most one game *)

Section one_court.
Context {A : Type} (pl : A → gset Player).

Lemma place_one_court C (s : list (list A)) (x : A) :
  C ≤ 1 → Forall (λ round, round ≠ []) s → place pl C s x = s ++ [[x]].
Proof.
  intros HC Hs. unfold place.
  destruct (list_find (fits pl C x) s) as [[k round]|] eqn:Hfind; [|done].
  apply list_find_Some in Hfind as (Hk & [Hlen _] & _).
  apply list_elem_of_lookup_2 in Hk.
  rewrite Forall_forall in Hs. specialize (Hs _ Hk).
  destruct round; [done|]. simpl in Hlen. lia.
Qed.

Lemma schedule_games_one_court C (xs : list A) :
  C ≤ 1 → schedule_games pl xs C = (λ x, [x]) <$> xs.
Proof.
  intros HC. unfold schedule_games.
  enough (∀ s, Forall (λ round : list A, round ≠ []) s →
               foldl (place pl C) s xs = s ++ ((λ x, [x]) <$> xs)) as H
    by (by apply H).
  induction xs as [|x xs IH]; intros s Hs; simpl.
  - by rewrite app_nil_r.
  - rewrite place_one_court by done.
    rewrite IH, <-app_assoc; [done|].
    apply Forall_app; split; [done|]. by repeat constructor.
Qed.
End one_court.

Lemma all_pairs_small P : P < 2 → all_pairs P = [].
Proof.
  intros HP. unfold all_pairs, range, seqZ.
  destruct (decide (P < 1)).
  - by replace (Z.to_nat (P + 1 - 1)) with O by lia.
  - by replace (Z.to_nat (P + 1 - 1)) with 1%nat by lia.
Qed.

(** ** What the greedy scheduler maintains *)

Section schedule_invariants.
Context {A : Type} (pl : A → gset Player).

Lemma players_list_elem (round : list A) x :
  x ∈ round → pl x ⊆ players_list pl round.
Proof.
  intros Hx p Hp. unfold players_list. apply elem_of_union_list.
  exists (pl x). split; [by apply list_elem_of_fmap_2|done].
Qed.

Lemma disjoint_round_singleton x : disjoint_round pl [x].
Proof.
  intros i j a b Hij Hi Hj.
  apply lookup_lt_Some in Hi, Hj. simpl in Hi, Hj. lia.
Qed.

Lemma disjoint_round_snoc round x :
  disjoint_round pl round → players_list pl round ∩ pl x = ∅ →
  disjoint_round pl (round ++ [x]).
Proof.
  intros Hround Hx.
  assert (∀ k a, round !! k = Some a → pl a ## pl x) as Hold.
  { intros k a Hk. apply list_elem_of_lookup_2, players_list_elem in Hk.
    set_solver. }
  intros i j a b Hij Hi Hj.
  apply lookup_snoc_Some in Hi as [[Hi Ha]|[Hi Ha]];
    apply lookup_snoc_Some in Hj as [[Hj Hb]|[Hj Hb]]; subst.
  - by apply (Hround i j).
  - by apply (Hold i).
  - symmetry. by apply (Hold j).
  - lia.
Qed.

Lemma place_round_ok C (s : list (list A)) (x : A) :
  1 ≤ C → Forall (round_ok pl C) s → Forall (round_ok pl C) (place pl C s x).
Proof.
  intros HC Hs.
  assert (Forall (round_ok pl C) (s ++ [[x]])) as Hnew.
  { apply Forall_app; split; [done|]. apply Forall_singleton.
    split; [simpl; lia|apply disjoint_round_singleton]. }
  unfold place.
  destruct (list_find (fits pl C x) s) as [[k [|y round]]|] eqn:Hfind; try done.
  apply list_find_Some in Hfind as (Hk & [Hlen Hdisj] & _).
  apply Forall_alter; [done|]. intros r Hr.
  assert (r = y :: round) as -> by congruence.
  intros [_ Hround]. split.
  - rewrite length_app. simpl in *. lia.
  - by apply disjoint_round_snoc.
Qed.

Lemma schedule_games_round_ok C (xs : list A) :
  1 ≤ C → Forall (round_ok pl C) (schedule_games pl xs C).
Proof.
  intros HC. unfold schedule_games.
  assert (Forall (round_ok pl C) (@nil (list A))) as Hs by constructor.
  revert Hs. generalize (@nil (list A)) as s.
  induction xs as [|x xs IH]; intros s Hs; simpl; [done|].
  by apply IH, place_round_ok.
Qed.

Lemma concat_alter_snoc (s : list (list A)) k x :
  (k < length s)%nat →
  concat (alter (λ round, round ++ [x]) k s) ≡ₚ concat s ++ [x].
Proof.
  revert k. induction s as [|r s IH]; intros k Hk; simpl in Hk; [lia|].
  destruct k as [|k]; simpl.
  - rewrite <-!app_assoc. apply Permutation_app_head, Permutation_app_comm.
  - change (list_alter (λ round, round ++ [x]) k s)
      with (alter (λ round, round ++ [x]) k s).
    rewrite IH by lia. by rewrite app_assoc.
Qed.

Lemma concat_place C (s : list (list A)) (x : A) :
  concat (place pl C s x) ≡ₚ concat s ++ [x].
Proof.
  unfold place.
  destruct (list_find (fits pl C x) s) as [[k [|y round]]|] eqn:Hfind;
    try (by rewrite concat_app; simpl).
  apply list_find_Some in Hfind as (Hk & _).
  apply concat_alter_snoc. by eapply lookup_lt_Some.
Qed.

Lemma concat_schedule_games C (xs : list A) :
  concat (schedule_games pl xs C) ≡ₚ xs.
Proof.
  unfold schedule_games.
  enough (∀ s, concat (foldl (place pl C) s xs) ≡ₚ concat s ++ xs) as H
    by apply H.
  induction xs as [|x xs IH]; intros s; simpl.
  - by rewrite app_nil_r.
  - by rewrite IH, concat_place, <-app_assoc.
Qed.
End schedule_invariants.

(** ** The table of opponent counts *)

Section counter.
Context `{Countable K}.

Lemma Counter_snoc (keys : list K) (k : K) :
  Counter (keys ++ [k]) = <[k := count_of (Counter keys) k + 1]> (Counter keys).
Proof. unfold Counter. by rewrite foldl_snoc. Qed.

Lemma occurrences_snoc (k x : K) (keys : list K) :
  occurrences k (keys ++ [x]) =
  occurrences k keys + (if decide (k = x) then 1 else 0).
Proof.
  unfold occurrences. rewrite filter_app, length_app.
  rewrite (filter_cons _ x []), filter_nil.
  destruct (decide (k = x)); simpl; lia.
Qed.

Lemma occurrences_pos (k : K) (keys : list K) :
  k ∈ keys → 0 < occurrences k keys.
Proof.
  intros Hk. unfold occurrences.
  assert (k ∈ filter (k =.) keys) as Hin by (by apply list_elem_of_filter).
  destruct (filter (k =.) keys); [by apply elem_of_nil in Hin|simpl; lia].
Qed.

Lemma occurrences_absent (k : K) (keys : list K) :
  k ∉ keys → occurrences k keys = 0.
Proof.
  intros Hk. unfold occurrences.
  destruct (filter (k =.) keys) as [|y l] eqn:Hf; [done|].
  assert (y ∈ filter (k =.) keys) as Hy by (rewrite Hf; left).
  apply list_elem_of_filter in Hy as [-> Hy]. done.
Qed.

(** A key is in the table exactly when the iterable produces it, and its
    count is the number of times it is produced. *)
Lemma Counter_lookup (keys : list K) (k : K) :
  Counter keys !! k =
  if decide (k ∈ keys) then Some (occurrences k keys) else None.
Proof.
  induction keys as [|x keys IH] using rev_ind.
  - rewrite decide_False by apply not_elem_of_nil. apply lookup_empty.
  - rewrite Counter_snoc, occurrences_snoc.
    destruct (decide (k = x)) as [->|Hne].
    + rewrite lookup_insert_eq, decide_True
        by (apply elem_of_app; right; left).
      unfold count_of. rewrite IH.
      destruct (decide (x ∈ keys)) as [Hin|Hin]; simpl; [done|].
      by rewrite occurrences_absent.
    + rewrite lookup_insert_ne by done. rewrite IH.
      rewrite Z.add_0_r.
      destruct (decide (k ∈ keys)) as [Hin|Hin].
      * by rewrite decide_True by (apply elem_of_app; by left).
      * rewrite decide_False; [done|].
        intros [?|Hx]%elem_of_app; [done|].
        by apply list_elem_of_singleton in Hx.
Qed.

Lemma count_of_Counter (keys : list K) (k : K) :
  count_of (Counter keys) k = occurrences k keys.
Proof.
  unfold count_of. rewrite Counter_lookup.
  destruct (decide (k ∈ keys)) as [Hin|Hin]; simpl; [done|].
  by rewrite occurrences_absent.
Qed.
End counter.

Lemma pairing_sorted p q : (pairing p q).1 ≤ (pairing p q).2.
Proof. unfold pairing. destruct (decide (p ≤ q)); simpl; lia. Qed.

Lemma pairing_id a b : a ≤ b → pairing a b = (a, b).
Proof. intros Hab. unfold pairing. by rewrite decide_True. Qed.

Lemma oppositions_sorted games k : k ∈ oppositions games → k.1 ≤ k.2.
Proof.
  unfold oppositions. intros Hk.
  apply list_elem_of_bind in Hk as ([[a1 a2] [b1 b2]] & Hk & _).
  repeat (apply elem_of_cons in Hk as [->|Hk]; [apply pairing_sorted|]).
  by apply elem_of_nil in Hk.
Qed.

Lemma cube_abs_zero c optimal : Z.abs (c - optimal) ^ 3 = 0 ↔ c = optimal.
Proof.
  rewrite Z.pow_eq_0_iff. lia.
Qed.

Lemma cube_abs_nonneg c optimal : 0 ≤ Z.abs (c - optimal) ^ 3.
Proof. apply Z.pow_nonneg. lia. Qed.

(** The sum of [total_difference] vanishes exactly when every count that is
    in the table is the optimal one. *)
Lemma sum_difference_zero (m : gmap (Player * Player) Z) optimal :
  map_fold (λ _ count acc, acc + Z.abs (count - optimal) ^ 3) 0 m = 0 ↔
  ∀ k c, m !! k = Some c → c = optimal.
Proof.
  enough (0 ≤ map_fold (λ _ count acc, acc + Z.abs (count - optimal) ^ 3) 0 m ∧
          (map_fold (λ _ count acc, acc + Z.abs (count - optimal) ^ 3) 0 m = 0 ↔
           ∀ k c, m !! k = Some c → c = optimal)) as [_ H] by done.
  apply (map_fold_weak_ind
    (λ r m, 0 ≤ r ∧ (r = 0 ↔ ∀ k c, m !! k = Some c → c = optimal))).
  - split; [lia|]. split; [|done]. intros _ k c Hk.
    by rewrite lookup_empty in Hk.
  - intros i x m' r Hi [Hr IH].
    pose proof (cube_abs_nonneg x optimal) as Hx.
    pose proof (cube_abs_zero x optimal) as Hx0.
    split; [lia|]. split.
    + intros Hsum k c Hk.
      destruct (decide (i = k)) as [->|Hne].
      * rewrite lookup_insert_eq in Hk. simplify_eq. apply Hx0. lia.
      * rewrite lookup_insert_ne in Hk by done.
        apply (proj1 IH) with k; [lia|done].
    + intros Hall.
      assert (x = optimal) as Hxo by (apply (Hall i); apply lookup_insert_eq).
      assert (r = 0) as ->.
      { apply IH. intros k c Hk. apply (Hall k).
        rewrite lookup_insert_ne; [done|]. intros ->. congruence. }
      apply Hx0 in Hxo. lia.
Qed.

(** ** Swapping pairs between games *)

Lemma side_set_sides (x : Game) s p :
  [(side_set x s p).1; (side_set x s p).2] ++ [side_get x s] ≡ₚ [x.1; x.2] ++ [p].
Proof. destruct s; simpl; solve_Permutation. Qed.

Lemma side_get_set (x : Game) s s' p :
  side_get (side_set x s p) s' = if decide (s = s') then p else side_get x s'.
Proof. by destruct s, s'. Qed.

Lemma side_set_get (x : Game) s : side_set x s (side_get x s) = x.
Proof. by destruct x, s. Qed.

Lemma side_set_set (x : Game) s p q : side_set (side_set x s p) s q = side_set x s q.
Proof. by destruct s. Qed.

Lemma partners_insert (games0 : list Game) g (x y : Game) :
  games0 !! g = Some x →
  partners (<[g := y]> games0) ++ [x.1; x.2] ≡ₚ partners games0 ++ [y.1; y.2].
Proof.
  revert g. induction games0 as [|z l IH]; intros g Hg; [done|].
  destruct g as [|g]; simpl in Hg.
  - simplify_eq. unfold partners. simpl. solve_Permutation.
  - unfold partners in *. simpl.
    change (list_insert g y l) with (<[g := y]> l).
    specialize (IH g Hg). simpl in IH.
    do 2 apply perm_skip. exact IH.
Qed.

(** What a successful [swap] has read and written. *)
Lemma swap_Ok games0 g1 g2 s1 s2 games2 :
  swap games0 ((g1, g2), (s1, s2)) = Ok games2 →
  ∃ x1 x2 y2,
    games0 !! g1 = Some x1 ∧ games0 !! g2 = Some x2 ∧
    <[g1 := side_set x1 s1 (side_get x2 s2)]> games0 !! g2 = Some y2 ∧
    side_get y2 s2 = side_get x2 s2 ∧
    games2 = <[g2 := side_set y2 s2 (side_get x1 s1)]>
               (<[g1 := side_set x1 s1 (side_get x2 s2)]> games0).
Proof.
  unfold swap, getitem. intros Hswap.
  destruct (games0 !! g2) as [x2|] eqn:H2; [|done]. simpl in Hswap.
  destruct (games0 !! g1) as [x1|] eqn:H1; [|done]. simpl in Hswap.
  destruct (<[g1:=side_set x1 s1 (side_get x2 s2)]> games0 !! g2)
    as [y2|] eqn:Hy; [|done].
  simpl in Hswap. exists x1, x2, y2.
  do 3 (split; [done|]). split; [|by injection Hswap].
  apply list_lookup_insert_Some in Hy as [(-> & <- & _)|[_ Hy]].
  - assert (x2 = x1) as -> by congruence.
    rewrite side_get_set. by destruct (decide (s1 = s2)) as [->|].
  - congruence.
Qed.

(** A swap moves whole pairs: the multiset of partner pairs is unchanged. *)
Lemma swap_partners games0 idx games2 :
  swap games0 idx = Ok games2 → partners games2 ≡ₚ partners games0.
Proof.
  destruct idx as [[g1 g2] [s1 s2]]. intros Hswap.
  apply swap_Ok in Hswap as (x1 & x2 & y2 & H1 & H2 & Hy & Hside & ->).
  set (a := side_set x1 s1 (side_get x2 s2)) in *.
  set (b := side_set y2 s2 (side_get x1 s1)).
  pose proof (partners_insert _ _ _ a H1) as P1.
  pose proof (partners_insert _ _ _ b Hy) as P2.
  pose proof (side_set_sides x1 s1 (side_get x2 s2)) as P3.
  pose proof (side_set_sides y2 s2 (side_get x1 s1)) as P4.
  fold a in P3. fold b in P4. rewrite Hside in P4.
  apply (Permutation_app_inv_r ([y2.1; y2.2] ++ [x1.1; x1.2])).
  rewrite app_assoc, P2.
  rewrite <-app_assoc, (Permutation_app_comm [b.1; b.2]), app_assoc, P1.
  rewrite <-!app_assoc. apply Permutation_app_head.
  apply (Permutation_app_inv_r ([side_get x1 s1] ++ [side_get x2 s2])).
  transitivity (([a.1; a.2] ++ [side_get x1 s1]) ++ ([b.1; b.2] ++ [side_get x2 s2]));
    [solve_Permutation|].
  rewrite P3, P4. solve_Permutation.
Qed.

Lemma swap_length games0 idx games2 :
  swap games0 idx = Ok games2 → length games2 = length games0.
Proof.
  destruct idx as [[g1 g2] [s1 s2]]. intros Hswap.
  apply swap_Ok in Hswap as (x1 & x2 & y2 & _ & _ & _ & _ & ->).
  by rewrite !length_insert.
Qed.

(** Swapping twice restores the store: [swap] is its own inverse. *)
Lemma swap_swap games0 idx games2 :
  swap games0 idx = Ok games2 → swap games2 idx = Ok games0.
Proof.
  destruct idx as [[g1 g2] [s1 s2]]. intros Hswap.
  apply swap_Ok in Hswap as (x1 & x2 & y2 & H1 & H2 & Hy & Hside & ->).
  pose proof (lookup_lt_Some _ _ _ H1) as Hg1.
  pose proof (lookup_lt_Some _ _ _ H2) as Hg2.
  destruct (decide (g1 = g2)) as [<-|Hne].
  - assert (x2 = x1) as -> by congruence.
    rewrite list_lookup_insert_eq in Hy by done. simplify_eq.
    rewrite list_insert_insert_eq.
    unfold swap, getitem.
    rewrite list_lookup_insert_eq by done. simpl.
    rewrite list_insert_insert_eq, list_lookup_insert_eq by done. simpl.
    rewrite list_insert_insert_eq. f_equal.
    apply list_insert_id. rewrite H1. f_equal.
    by destruct x1 as [[] []], s1, s2.
  - rewrite list_lookup_insert_ne in Hy by done.
    assert (y2 = x2) as -> by congruence.
    unfold swap, getitem.
    rewrite list_lookup_insert_eq by (by rewrite length_insert). simpl.
    rewrite list_lookup_insert_ne, list_lookup_insert_eq by done. simpl.
    rewrite list_lookup_insert_ne, list_lookup_insert_eq
      by (done || by rewrite !length_insert). simpl.
    f_equal.
    rewrite !side_get_set, !decide_True by done.
    rewrite !side_set_set, !side_set_get.
    rewrite (list_insert_insert_ne _ g1 g2) by done.
    rewrite !list_insert_insert_eq.
    rewrite (list_insert_id _ g1) by done.
    by apply list_insert_id.
Qed.

(** ** One iteration of the hillclimbing loop *)

Lemma keeps_acceptable C st i j games1 b :
  keeps C st i j games1 = Ok b → b = true ↔ acceptable C st i j games1.
Proof.
  unfold keeps, acceptable, getitem. intros Hkeeps.
  case_bool_decide as Hdiff;
    [|injection Hkeeps as <-; split; [done|by intros [? _]]].
  destruct (games1 !! i) as [gi|]; [|done]. cbn [mbind result_bind] in Hkeeps.
  case_bool_decide as Hi;
    [|injection Hkeeps as <-; split;
      [done|intros (_ & (? & ? & ?) & _); congruence]].
  destruct (games1 !! j) as [gj|]; [|done]. cbn [mbind result_bind] in Hkeeps.
  case_bool_decide as Hj;
    [|injection Hkeeps as <-; split;
      [done|intros (_ & _ & (? & ? & ?) & _); congruence]].
  injection Hkeeps as <-. rewrite bool_decide_eq_true. split.
  - intros Hlen. split; [done|]. split; [by exists gi|]. split; [by exists gj|done].
  - by intros (_ & _ & _ & Hlen).
Qed.

(** The two ways an iteration ends: the swap is kept and the schedule and
    the score are replaced, or the swap is undone and nothing has changed. *)
Lemma iteration_Ok C d st st' :
  iteration C d st = Ok st' →
  ∃ games1, swap (games st) (sample d, sides d) = Ok games1 ∧
    (acceptable C st (sample d).1 (sample d).2 games1 ∧
       st' = State games1 (sched_refs games1 C) (total_difference games1 2)
     ∨ ¬ acceptable C st (sample d).1 (sample d).2 games1 ∧ st' = st).
Proof.
  unfold iteration. intros Hit. cbv zeta in Hit.
  destruct (decide (length (games st) < 2)%nat); [done|].
  destruct (swap (games st) (sample d, sides d)) as [games1|] eqn:Hswap; [|done].
  cbn [mbind result_bind] in Hit. exists games1. split; [done|].
  destruct (keeps C st (sample d).1 (sample d).2 games1) as [keep|] eqn:Hkeep;
    [|done].
  apply keeps_acceptable in Hkeep. cbn [mbind result_bind] in Hit.
  destruct keep.
  - left. split; [by apply Hkeep|by simplify_eq].
  - right. split; [intros Hacc; by apply Hkeep in Hacc|].
    rewrite (swap_swap _ _ _ Hswap) in Hit. cbn [mbind result_bind] in Hit.
    destruct st. by simplify_eq.
Qed.

Lemma iteration_partners C d st st' :
  iteration C d st = Ok st' → partners (games st') ≡ₚ partners (games st).
Proof.
  intros (games1 & Hswap & [[_ ->]|[_ ->]])%iteration_Ok; [|done].
  by apply swap_partners in Hswap.
Qed.

Lemma iteration_monotone C d st st' :
  iteration C d st = Ok st' →
  diff st' ≤ diff st ∧ (length (sched st') ≤ length (sched st))%nat.
Proof.
  intros (games1 & Hswap & [[Hacc ->]|[_ ->]])%iteration_Ok; [|done].
  destruct Hacc as (? & _ & _ & ?). done.
Qed.

Lemma iteration_coherent C d st st' :
  iteration C d st = Ok st' → coherent C st → coherent C st'.
Proof.
  by intros (games1 & Hswap & [[_ ->]|[_ ->]])%iteration_Ok.
Qed.

(** ** The whole loop *)

Section loop.
Context (P C : Z).

(** A property of states that every iteration preserves holds when the
    loop ends. *)
Lemma loop_ind (R : state → state → Prop) :
  (∀ st, R st st) →
  (∀ st1 st2 st3, R st1 st2 → R st2 st3 → R st1 st3) →
  (∀ d st st', iteration C d st = Ok st' → R st st') →
  ∀ tries rnd st st', loop P C tries rnd st = Ok st' → R st st'.
Proof.
  intros Hrefl Htrans Hstep tries.
  induction tries as [|tries IH]; intros rnd st st' Hloop; simpl in Hloop.
  - by simplify_eq.
  - destruct (is_optimal (sched st) (diff st) P C) as [[]|]; simpl in Hloop;
      [by simplify_eq| |done].
    destruct (iteration C (rnd O) st) as [st1|] eqn:Hit; [|done].
    simpl in Hloop. eapply Htrans; [by eapply Hstep|by eapply IH].
Qed.

Lemma loop_partners tries rnd st st' :
  loop P C tries rnd st = Ok st' → partners (games st') ≡ₚ partners (games st).
Proof.
  apply (loop_ind (λ st st', partners (games st') ≡ₚ partners (games st))).
  - done.
  - intros st1 st2 st3 H12 H23. by rewrite H23.
  - apply iteration_partners.
Qed.

Lemma loop_monotone tries rnd st st' :
  loop P C tries rnd st = Ok st' →
  diff st' ≤ diff st ∧ (length (sched st') ≤ length (sched st))%nat.
Proof.
  apply (loop_ind (λ st st',
    diff st' ≤ diff st ∧ (length (sched st') ≤ length (sched st))%nat)).
  - done.
  - intros st1 st2 st3 [? ?] [? ?]. lia.
  - apply iteration_monotone.
Qed.

Lemma loop_coherent tries rnd st st' :
  loop P C tries rnd st = Ok st' → coherent C st → coherent C st'.
Proof.
  apply (loop_ind (λ st st', coherent C st → coherent C st')).
  - done.
  - auto.
  - apply iteration_coherent.
Qed.
End loop.

(** What [tournament2] returns is the schedule of the game list it ends
    with. *)
Lemma tournament2_Ok P C tries rnd schedule :
  tournament2 P C tries rnd = Ok schedule →
  ∃ games0 st,
    games_from_pairs (all_pairs P) = Some games0 ∧
    loop P C (Z.to_nat tries) rnd (initial games0 C) = Ok st ∧
    schedule = schedule_games players_game (games st) C.
Proof.
  unfold tournament2. intros Ht.
  destruct (games_from_pairs (all_pairs P)) as [games0|]; [|done].
  destruct (loop P C (Z.to_nat tries) rnd (initial games0 C)) as [st|] eqn:Hloop;
    [|done].
  simpl in Ht. exists games0, st. do 2 (split; [done|]).
  apply loop_coherent in Hloop as [Hsched _]; [|done].
  rewrite Hsched, view_sched_refs in Ht. by simplify_eq.
Qed.

(** ** What the backtracking search returns *)

Lemma four_distinct_ne pair1 pair2 : four_distinct pair1 pair2 = true → pair1 ≠ pair2.
Proof.
  unfold four_distinct. rewrite bool_decide_eq_true.
  intros Hsize <-. destruct pair1 as [a b]. cbn [fst snd] in Hsize.
  assert ((list_to_set [a; b; a; b] : gset Player) = {[a]} ∪ {[b]}) as Heq
    by (apply set_eq; intros x; set_unfold; tauto).
  rewrite Heq, size_union_alt, size_singleton in Hsize.
  assert (size (({[b]} : gset Player) ∖ {[a]}) ≤ 1)%nat; [|lia].
  rewrite <-(size_singleton (C:=gset Player) b).
  apply subseteq_size. apply subseteq_difference_l. done.
Qed.

Lemma try_pair2_Some rec pair1 pairs cands games0 :
  try_pair2 rec pair1 pairs cands = Some games0 →
  ∃ pair2 other_games,
    pair2 ∈ cands ∧ four_distinct pair1 pair2 = true ∧
    rec (without pair1 pair2 pairs) = Some other_games ∧
    games0 = (pair1, pair2) :: other_games.
Proof.
  induction cands as [|pair2 cands IH]; simpl; [done|]. intros Htry.
  destruct (four_distinct pair1 pair2) eqn:Hfour.
  - destruct (rec (without pair1 pair2 pairs)) as [other_games|] eqn:Hrec.
    + exists pair2, other_games. simplify_eq. repeat split; [left|done..].
    + destruct (IH Htry) as (q & o & Hq & H'). exists q, o. split; [by right|done].
  - destruct (IH Htry) as (q & o & Hq & H'). exists q, o. split; [by right|done].
Qed.

Lemma without_Permutation pair1 pair2 (pairs : list Pair) :
  NoDup pairs → pair1 ∈ pairs → pair2 ∈ pairs → pair1 ≠ pair2 →
  pairs ≡ₚ pair1 :: pair2 :: without pair1 pair2 pairs.
Proof.
  intros Hnd H1 H2 Hne. unfold without.
  apply NoDup_Permutation; [done| |].
  - apply NoDup_cons; split.
    + intros [?|[[? _] _]%list_elem_of_filter]%elem_of_cons; done.
    + apply NoDup_cons; split; [|by apply NoDup_filter].
      intros [[_ ?] _]%list_elem_of_filter. done.
  - intros p. rewrite !elem_of_cons, list_elem_of_filter.
    destruct (decide (p = pair1)) as [->|]; [tauto|].
    destruct (decide (p = pair2)) as [->|]; tauto.
Qed.

(** The games returned use every pair of a duplicate-free list once, except
    for at most one pair that is left over; the two pairs of a game have
    four players. *)
Lemma games_from_pairs_Some (pairs : list Pair) games0 :
  NoDup pairs → games_from_pairs pairs = Some games0 →
  Forall (λ g : Game, four_distinct g.1 g.2 = true) games0 ∧
  ∃ leftover, (length leftover < 2)%nat ∧ partners games0 ++ leftover ≡ₚ pairs.
Proof.
  remember (length pairs) as n eqn:Hn. revert pairs Hn games0.
  induction (lt_wf n) as [n _ IH]. intros pairs -> games0 Hnd Hgames.
  rewrite games_from_pairs_unfold in Hgames.
  destruct (decide (length pairs < 2)%nat) as [Hlen|Hlen].
  - simplify_eq. split; [constructor|]. by exists pairs.
  - destruct pairs as [|pair1 rest]; [done|].
    apply try_pair2_Some in Hgames
      as (pair2 & other_games & Hin & Hfour & Hrec & ->).
    pose proof (four_distinct_ne _ _ Hfour) as Hne.
    pose proof (without_shorter pair1 pair2 rest) as Hshort.
    destruct (IH (length (without pair1 pair2 (pair1 :: rest))))
      with (pairs := without pair1 pair2 (pair1 :: rest)) (games0 := other_games)
      as (Hall & leftover & Hleft & Hperm);
      [simpl; lia|done|by apply NoDup_filter|done|].
    split; [by constructor|].
    exists leftover. split; [done|].
    rewrite (without_Permutation pair1 pair2 (pair1 :: rest)) by (done || left).
    unfold partners in *. simpl. by rewrite Hperm.
Qed.

(** ** The pairs enumerated by [all_pairs] *)

Lemma length_combinations2 {A} (l : list A) :
  (2 * length (combinations2 l) = length l * (length l - 1))%nat.
Proof.
  induction l as [|x l IH]; [done|].
  simpl. rewrite length_app, length_fmap. nia.
Qed.

Lemma elem_of_combinations2_seqZ m k a b :
  (a, b) ∈ combinations2 (seqZ m (Z.of_nat k)) ↔ m ≤ a < b ∧ b < m + Z.of_nat k.
Proof.
  revert m. induction k as [|k IH]; intros m.
  - simpl. rewrite elem_of_nil. lia.
  - rewrite seqZ_cons by lia. simpl.
    replace (Z.pred (Z.of_nat (S k))) with (Z.of_nat k) by lia.
    rewrite elem_of_app, list_elem_of_fmap, IH. split.
    + intros [(y & Heq & Hy)|?]; [|lia].
      apply elem_of_seqZ in Hy. simplify_eq. lia.
    + intros Hab. destruct (decide (a = m)) as [->|]; [|right; lia].
      left. exists b. split; [done|]. apply elem_of_seqZ. lia.
Qed.

Lemma NoDup_combinations2_seqZ m k : NoDup (combinations2 (seqZ m (Z.of_nat k))).
Proof.
  revert m. induction k as [|k IH]; intros m; [constructor|].
  rewrite seqZ_cons by lia. simpl.
  replace (Z.pred (Z.of_nat (S k))) with (Z.of_nat k) by lia.
  apply NoDup_app. split; [|split; [|apply IH]].
  - apply NoDup_fmap_2; [|apply NoDup_seqZ]. by intros x y [=].
  - intros [a b] (y & Heq & _)%list_elem_of_fmap Hin.
    apply elem_of_combinations2_seqZ in Hin. simplify_eq. lia.
Qed.

Lemma all_pairs_seqZ P : 0 ≤ P → all_pairs P = combinations2 (seqZ 1 (Z.of_nat (Z.to_nat P))).
Proof. intros HP. unfold all_pairs, range. do 2 f_equal. lia. Qed.

Lemma elem_of_all_pairs P a b : (a, b) ∈ all_pairs P ↔ 1 ≤ a < b ∧ b ≤ P.
Proof.
  destruct (decide (0 ≤ P)) as [HP|HP].
  - rewrite all_pairs_seqZ, elem_of_combinations2_seqZ by done. lia.
  - rewrite all_pairs_small by lia. rewrite elem_of_nil. lia.
Qed.

Lemma NoDup_all_pairs P : NoDup (all_pairs P).
Proof.
  destruct (decide (0 ≤ P)) as [HP|HP].
  - rewrite all_pairs_seqZ by done. apply NoDup_combinations2_seqZ.
  - rewrite all_pairs_small by lia. constructor.
Qed.

Lemma length_all_pairs P :
  0 ≤ P → 2 * Z.of_nat (length (all_pairs P)) = P * (P - 1).
Proof.
  intros HP. pose proof (length_combinations2 (range 1 (P + 1))) as Hlen.
  fold (all_pairs P) in Hlen. unfold range in Hlen.
  rewrite length_seqZ in Hlen. unfold Pair, Player in *.
  replace (P + 1 - 1) with P in Hlen by lia.
  rewrite <-(Z2Nat.id P) at 2 3 by done.
  destruct (Z.to_nat P) as [|n]; [lia|].
  replace (S n - 1)%nat with n in Hlen by lia.
  replace (Z.of_nat (S n) - 1) with (Z.of_nat n) by lia.
  rewrite <-Nat2Z.inj_mul, <-Hlen. lia.
Qed.

(** ** Partner coverage *)

Lemma length_partners games0 : length (partners games0) = (2 * length games0)%nat.
Proof.
  induction games0 as [|g l IH]; [done|].
  change (partners (g :: l)) with (g.1 :: g.2 :: partners l).
  cbn [length]. rewrite IH. lia.
Qed.

Lemma partner_games_NoDup games0 a b :
  NoDup (partners games0) → (∀ p, p ∈ partners games0 → p.1 < p.2) → a < b →
  partner_games games0 a b = if decide ((a, b) ∈ partners games0) then 1%nat else 0%nat.
Proof.
  intros Hnd Hsorted Hab. unfold partner_games.
  induction games0 as [|g l IH].
  - by rewrite decide_False by apply not_elem_of_nil.
  - change (partners (g :: l)) with (g.1 :: g.2 :: partners l) in *.
    apply NoDup_cons in Hnd as [Hg1 Hnd]. apply NoDup_cons in Hnd as [Hg2 Hnd].
    assert (g.1.1 < g.1.2) as Hs1 by (apply Hsorted; left).
    assert (g.2.1 < g.2.2) as Hs2 by (apply Hsorted; right; left).
    assert (∀ p, p ∈ partners l → p.1 < p.2) as Hsorted'
      by (intros p Hp; apply Hsorted; by do 2 right).
    specialize (IH Hnd Hsorted'). rewrite filter_cons.
    destruct (decide (partnered a b g)) as [Hp|Hp]; cbn [length]; rewrite IH.
    + assert (g.1 = (a, b) ∨ g.2 = (a, b)) as Hin.
      { destruct Hp as [?|[Hp|[?|Hp]]]; [by left| |by right|];
          rewrite Hp in *; simpl in *; lia. }
      destruct (decide ((a, b) ∈ partners l)) as [Hl|Hl].
      * exfalso. destruct Hin as [Hin|Hin]; rewrite Hin in *; [|done].
        apply Hg1. by right.
      * rewrite decide_True; [done|].
        destruct Hin as [<-|<-]; [left|right; left].
    + assert ((a, b) ≠ g.1 ∧ (a, b) ≠ g.2) as [Hn1 Hn2].
      { unfold partnered in Hp. split; intros Heq; apply Hp; rewrite <-Heq; tauto. }
      destruct (decide ((a, b) ∈ partners l)) as [Hl|Hl].
      * by rewrite decide_True by (by do 2 right).
      * rewrite decide_False; [done|].
        intros [?|[?|?]%elem_of_cons]%elem_of_cons; done.
Qed.

(** Whenever the search succeeds on the pairs of [all_pairs(P)], its games
    cover the pairs as the number of pairs allows. *)
Lemma games_from_all_pairs_coverage P games0 :
  0 ≤ P → games_from_pairs (all_pairs P) = Some games0 → partner_coverage P games0.
Proof.
  intros HP Hgames.
  destruct (games_from_pairs_Some _ _ (NoDup_all_pairs P) Hgames)
    as (_ & leftover & Hleft & Hperm).
  pose proof (NoDup_all_pairs P) as Hnd. rewrite <-Hperm in Hnd.
  apply NoDup_app in Hnd as (Hnd & Hdisj & _).
  assert (∀ p, p ∈ partners games0 → p.1 < p.2) as Hsorted.
  { intros [a b] Hp. simpl.
    assert ((a, b) ∈ all_pairs P) as Hin
      by (rewrite <-Hperm; apply elem_of_app; by left).
    apply elem_of_all_pairs in Hin. lia. }
  assert (∀ a b, 1 ≤ a < b ∧ b ≤ P →
            (a, b) ∈ partners games0 ∨ (a, b) ∈ leftover) as Hcover.
  { intros a b Hab. apply elem_of_app. rewrite Hperm.
    by apply elem_of_all_pairs. }
  pose proof (length_all_pairs P HP) as Hlen.
  rewrite <-Hperm, length_app, length_partners in Hlen.
  unfold partner_coverage.
  destruct leftover as [|[a0 b0] [|? ?]]; [| |simpl in Hleft; lia].
  - rewrite decide_True;
      [|rewrite <-Hlen; cbn [length];
        replace (2 * Z.of_nat (2 * length games0 + 0))
          with (Z.of_nat (length games0) * 4) by lia;
        apply Z_mod_mult].
    intros a b Hab. rewrite partner_games_NoDup by (done || lia).
    destruct (Hcover a b Hab) as [Hin|Hin]; [|by apply elem_of_nil in Hin].
    by rewrite decide_True.
  - rewrite decide_False;
      [|rewrite <-Hlen; cbn [length];
        replace (2 * Z.of_nat (2 * length games0 + 1))
          with (2 + Z.of_nat (length games0) * 4) by lia;
        by rewrite Z_mod_plus_full].
    assert ((a0, b0) ∈ all_pairs P) as Hin0
      by (rewrite <-Hperm; apply elem_of_app; right; left).
    apply elem_of_all_pairs in Hin0.
    exists a0, b0. split; [done|]. split.
    + rewrite partner_games_NoDup by (done || lia).
      rewrite decide_False; [done|]. intros Hin. apply (Hdisj _ Hin). left.
    + intros a b Hab Hne. rewrite partner_games_NoDup by (done || lia).
      destruct (Hcover a b Hab) as [Hin|Hin]; [by rewrite decide_True|].
      by apply list_elem_of_singleton in Hin.
Qed.

(** * The claims of the specification *)

(** ** C1: exhaustion of the backtracking search *)

(** C1, as stated, fails: for three players the search of
    [games_from_pairs] is exhausted and returns [None]; neither entry point
    recovers, both end with the [TypeError] raised when [schedule_games]
    iterates over [None]. *)
Lemma exhausted_search_crashes :
  games_from_pairs (all_pairs 3) = None ∧
  tournament 3 1 = Raise TypeError ∧
  tournament2 3 1 200000 draws_8 = Raise TypeError.
Proof. by vm_compute. Qed.

(** C1, amended: whenever [games_from_pairs(all_pairs(P))] returns its
    failure value, [tournament(P, C)] and [tournament2(P, C, tries)] do not
    return a result: both raise [TypeError]. *)
Theorem exhausted_search_raises P C tries rnd :
  games_from_pairs (all_pairs P) = None →
  tournament P C = Raise TypeError ∧ tournament2 P C tries rnd = Raise TypeError.
Proof. intros Hnone. unfold tournament, tournament2. by rewrite Hnone. Qed.

Lemma exhausted_search_raises_witness :
  games_from_pairs (all_pairs 3) = None ∧
  tournament 3 2 = Raise TypeError ∧ tournament2 3 2 10 draws_8 = Raise TypeError.
Proof.
  split; [vm_compute; reflexivity|].
  apply (exhausted_search_raises 3 2 10 draws_8). vm_compute. reflexivity.
Defined.

(** ** C2: partner coverage *)

(** C2, as stated, fails: for three players there is no game list at all
    ([games_from_pairs] returns [None]), and read as an empty game list it
    omits all three pairs, not one. *)
Lemma partner_coverage_fails_3 :
  games_from_pairs (all_pairs 3) = None ∧ ¬ partner_coverage 3 [].
Proof.
  split; [by vm_compute|].
  unfold partner_coverage. rewrite decide_False by (by vm_compute).
  intros (a0 & b0 & _ & _ & Hrest).
  destruct (decide ((1, 2) = (a0, b0))) as [Heq|Hne].
  - specialize (Hrest 1 3). simplify_eq.
    assert (partner_games [] 1 3 = 1%nat) as Hone by (by apply Hrest).
    by vm_compute in Hone.
  - assert (partner_games [] 1 2 = 1%nat) as Hone by (by apply Hrest).
    by vm_compute in Hone.
Qed.

(** C2, amended: for every [P >= 2] for which [games_from_pairs(all_pairs(P))]
    returns a game list: if [P * (P - 1)] is divisible by 4, every pair of
    distinct players of [1..P] is a partner pair in exactly one game;
    otherwise exactly one pair is omitted and every other pair is a partner
    pair in exactly one game. *)
Theorem partner_coverage_when_packed P games0 :
  2 ≤ P → games_from_pairs (all_pairs P) = Some games0 →
  partner_coverage P games0.
Proof. intros HP. apply games_from_all_pairs_coverage. lia. Qed.

Lemma partner_coverage_when_packed_witness :
  2 ≤ 8 ∧ games_from_pairs (all_pairs 8) = Some games_8 ∧
  partner_coverage 8 games_8.
Proof.
  split; [lia|]. split; [vm_compute; reflexivity|].
  apply (partner_coverage_when_packed 8 games_8); [lia|vm_compute; reflexivity].
Defined.

(** ** C3: when the dispersion is zero *)

(** C3, as stated, fails: when the same game is played twice, the score is
    zero although the partners 1 and 2 take part and never oppose each
    other; their pair is not in the table and adds nothing to the sum. *)
Lemma unmet_pair_not_penalized :
  total_difference [((1, 2), (3, 4)); ((1, 2), (3, 4))] 2 = 0 ∧
  opposed [((1, 2), (3, 4)); ((1, 2), (3, 4))] 1 2 = 0 ∧
  ¬ participants_opposed_twice [((1, 2), (3, 4)); ((1, 2), (3, 4))].
Proof.
  split; [by vm_compute|]. split; [by vm_compute|].
  intros Hall. specialize (Hall 1 2).
  assert (opposed [((1, 2), (3, 4)); ((1, 2), (3, 4))] 1 2 = 2) as Hopp.
  { apply Hall; [| |done]; apply (bool_decide_unpack _); by vm_compute. }
  by vm_compute in Hopp.
Qed.

(** C3, amended: [total_difference(games)] is zero if and only if every
    pair of players that opposes each other at least once opposes each
    other exactly twice. *)
Theorem total_difference_zero_iff games0 :
  total_difference games0 2 = 0 ↔
  ∀ p q, opposed games0 p q = 0 ∨ opposed games0 p q = 2.
Proof.
  unfold total_difference. rewrite sum_difference_zero.
  unfold opposed, opponent_counts. split.
  - intros Hall p q. unfold count_of.
    destruct (Counter (oppositions games0) !! pairing p q) as [c|] eqn:Hc;
      simpl; [right; by eapply Hall|by left].
  - intros Hall [a b] c Hc.
    pose proof Hc as Hin. rewrite Counter_lookup in Hin.
    destruct (decide ((a, b) ∈ oppositions games0)) as [Hk|]; [|done].
    pose proof (occurrences_pos _ _ Hk) as Hpos. injection Hin as Hin.
    apply oppositions_sorted in Hk. simpl in Hk.
    specialize (Hall a b). rewrite pairing_id in Hall by done.
    rewrite !count_of_Counter in Hall. unfold Player in *. lia.
Qed.

(** ** C4: the recorded state never gets worse *)

(** C4: after an iteration the stored score and the stored round count are
    at most what they were before; the swapped game list is kept only when
    the new score is not larger, both swapped games have four players and
    the new schedule has no more rounds, and otherwise the swap is undone
    and the state is the one before the iteration. *)
Theorem iteration_non_worsening C d st st' :
  iteration C d st = Ok st' →
  diff st' ≤ diff st ∧
  (length (sched st') ≤ length (sched st))%nat ∧
  ∃ games1, swap (games st) (sample d, sides d) = Ok games1 ∧
    (acceptable C st (sample d).1 (sample d).2 games1 ∧
       st' = State games1 (sched_refs games1 C) (total_difference games1 2)
     ∨ ¬ acceptable C st (sample d).1 (sample d).2 games1 ∧ st' = st).
Proof.
  intros Hit. pose proof (iteration_monotone _ _ _ _ Hit) as [? ?].
  do 2 (split; [done|]). by apply iteration_Ok.
Qed.

Lemma iteration_non_worsening_witness :
  ∃ st', iteration 2 (draws_8 0) (initial games_8 2) = Ok st' ∧
    diff st' ≤ diff (initial games_8 2) ∧
    (length (sched st') ≤ length (sched (initial games_8 2)))%nat.
Proof.
  eexists. split; [vm_compute; reflexivity|].
  match goal with
  | |- diff ?s ≤ _ ∧ _ =>
      destruct (iteration_non_worsening 2 (draws_8 0) (initial games_8 2) s)
        as (Hdiff & Hlen & _); [vm_compute; reflexivity|]
  end.
  split; [exact Hdiff|exact Hlen].
Defined.

(** ** C5: scheduling neither drops nor duplicates a game *)

(** C5: the games of all the rounds of [schedule_games(games, C)] are the
    games of the input, as multisets. *)
Theorem schedule_games_keeps_games (games0 : list Game) C :
  1 ≤ C → concat (schedule_games players_game games0 C) ≡ₚ games0.
Proof. intros _. apply concat_schedule_games. Qed.

Lemma schedule_games_keeps_games_witness :
  1 ≤ 2 ∧ concat (schedule_games players_game games_8 2) ≡ₚ games_8.
Proof. split; [lia|]. apply (schedule_games_keeps_games games_8 2). lia. Defined.

(** ** C6: rounds are within the court count and conflict-free *)

(** C6: every round of [schedule_games(games, C)] has at most [C] games, and
    no player appears in two games of a round. *)
Theorem schedule_respects_courts (games0 : list Game) C :
  1 ≤ C →
  Forall (λ round : list Game,
            Z.of_nat (length round) ≤ C ∧
            ∀ i j x y, i ≠ j → round !! i = Some x → round !! j = Some y →
                       players_game x ## players_game y)
         (schedule_games players_game games0 C).
Proof. intros HC. by apply schedule_games_round_ok. Qed.

Lemma schedule_respects_courts_witness :
  1 ≤ 2 ∧
  Forall (λ round : list Game,
            Z.of_nat (length round) ≤ 2 ∧
            ∀ i j x y, i ≠ j → round !! i = Some x → round !! j = Some y →
                       players_game x ## players_game y)
         (schedule_games players_game games_8 2).
Proof. split; [lia|]. apply (schedule_respects_courts games_8 2). lia. Defined.

(** ** C7: no tries, no change *)

(** C7: [tournament2(8, 2, tries=0)] returns the schedule of
    [tournament(8, 2)], whatever the random generator would have drawn. *)
Theorem tournament2_zero_tries rnd : tournament2 8 2 0 rnd = tournament 8 2.
Proof. by apply tournament2_no_tries. Qed.

(** ** C8: inputs outside the contract *)

(** C8, as stated, fails: with four players and no court the input is not
    rejected; the result is the ordinary three-round schedule that
    [tournament(4, 1)] returns. *)
Lemma zero_courts_not_rejected :
  tournament 4 0 = Ok [[((1, 2), (3, 4))]; [((1, 3), (2, 4))]; [((1, 4), (2, 3))]] ∧
  tournament 4 0 = tournament 4 1.
Proof. by vm_compute. Qed.

(** C8, amended: nothing is rejected. With fewer than two players the
    pipeline runs on an empty list of pairs and returns the empty schedule;
    with two players or more and fewer than one court the result is
    computed as for one court, every game in a round of its own. *)
Theorem tournament_invalid_input P C :
  P < 2 ∨ C < 1 →
  P < 2 ∧ tournament P C = Ok []
  ∨ 2 ≤ P ∧ tournament P C = tournament P 1 ∧
    tournament P C = match games_from_pairs (all_pairs P) with
                     | Some games0 => Ok ((λ g, [g]) <$> games0)
                     | None => Raise TypeError
                     end.
Proof.
  intros Hinvalid. destruct (decide (P < 2)) as [HP|HP].
  - left. split; [done|]. unfold tournament. by rewrite all_pairs_small.
  - right. split; [lia|]. unfold tournament.
    destruct (games_from_pairs (all_pairs P)) as [games0|]; [|done].
    by rewrite !schedule_games_one_court by lia.
Qed.

Lemma tournament_invalid_input_witness :
  (4 < 2 ∨ 0 < 1) ∧
  (4 < 2 ∧ tournament 4 0 = Ok []
   ∨ 2 ≤ 4 ∧ tournament 4 0 = tournament 4 1 ∧
     tournament 4 0 = match games_from_pairs (all_pairs 4) with
                      | Some games0 => Ok ((λ g, [g]) <$> games0)
                      | None => Raise TypeError
                      end).
Proof.
  split; [right; lia|]. apply (tournament_invalid_input 4 0). right. lia.
Defined.

(** ** C9: two players *)

(** C9: [all_pairs(2)] is the single pair (1, 2), [games_from_pairs] drops
    it, and [tournament(2, C)] is the empty schedule. *)
Theorem tournament_two_players C :
  1 ≤ C →
  all_pairs 2 = [(1, 2)] ∧ games_from_pairs (all_pairs 2) = Some [] ∧
  tournament 2 C = Ok [].
Proof. by intros _. Qed.

Lemma tournament_two_players_witness :
  1 ≤ 1 ∧ all_pairs 2 = [(1, 2)] ∧ games_from_pairs (all_pairs 2) = Some [] ∧
  tournament 2 1 = Ok [].
Proof. split; [lia|]. apply (tournament_two_players 1). lia. Defined.

(** ** C10: optimization never changes who partners with whom *)

(** C10: whatever the number of iterations and the draws, the partner pairs
    spread across the working game list when the loop ends are those it
    started with, as multisets. *)
Theorem optimization_keeps_partners P C tries rnd st st' :
  loop P C tries rnd st = Ok st' → partners (games st') ≡ₚ partners (games st).
Proof. apply loop_partners. Qed.

Lemma optimization_keeps_partners_witness :
  ∃ st', loop 8 2 3 draws_8 (initial games_8 2) = Ok st' ∧
    partners (games st') ≡ₚ partners (games (initial games_8 2)).
Proof.
  eexists. split; [vm_compute; reflexivity|].
  apply (optimization_keeps_partners 8 2 3 draws_8). vm_compute. reflexivity.
Defined.

(** * Further properties of the code *)

(** ** [all_pairs] *)

Lemma StronglySorted_combinations2_seqZ m k :
  StronglySorted pair_lt (combinations2 (seqZ m (Z.of_nat k))).
Proof.
  revert m. induction k as [|k IH]; intros m; [constructor|].
  rewrite seqZ_cons by lia. simpl.
  replace (Z.pred (Z.of_nat (S k))) with (Z.of_nat k) by lia.
  apply StronglySorted_app_2; [| |apply IH].
  - intros [a b] [c d] (y & Heq & _)%list_elem_of_fmap Hin.
    apply elem_of_combinations2_seqZ in Hin. simplify_eq.
    left. simpl. lia.
  - apply (StronglySorted_fmap _ Z.lt).
    + intros x y Hxy. right. simpl. done.
    + generalize (Z.succ m). clear. induction k as [|k IH]; intros m; [constructor|].
      rewrite seqZ_cons by lia.
      replace (Z.pred (Z.of_nat (S k))) with (Z.of_nat k) by lia.
      constructor; [apply IH|]. apply Forall_forall.
      intros x Hx%elem_of_seqZ. lia.
Qed.

(** X1: [all_pairs(P)] lists exactly the tuples [(a, b)] with
    [1 <= a < b <= P], each once and in lexicographic order. *)
Theorem all_pairs_enumerates P :
  (∀ a b, (a, b) ∈ all_pairs P ↔ 1 ≤ a < b ∧ b ≤ P) ∧
  NoDup (all_pairs P) ∧
  StronglySorted pair_lt (all_pairs P).
Proof.
  split; [intros a b; apply elem_of_all_pairs|]. split; [apply NoDup_all_pairs|].
  destruct (decide (0 ≤ P)) as [HP|HP].
  - rewrite all_pairs_seqZ by done. apply StronglySorted_combinations2_seqZ.
  - rewrite all_pairs_small by lia. constructor.
Qed.

(** X2: for [P >= 0] players [all_pairs(P)] has [P * (P - 1) / 2] pairs. *)
Theorem all_pairs_count P :
  0 ≤ P → 2 * Z.of_nat (length (all_pairs P)) = P * (P - 1).
Proof. apply length_all_pairs. Qed.

Lemma all_pairs_count_witness :
  0 ≤ 6 ∧ 2 * Z.of_nat (length (all_pairs 6)) = 6 * (6 - 1).
Proof. split; [lia|]. apply (all_pairs_count 6). lia. Defined.

(** ** [games_from_pairs] *)

Lemma four_distinct_valid_game (g : Game) :
  four_distinct g.1 g.2 = true ↔ valid_game g.
Proof.
  unfold four_distinct, valid_game, players_game, players_pair.
  rewrite bool_decide_eq_true.
  replace (list_to_set [g.1.1; g.1.2; g.2.1; g.2.2] : gset Player)
    with (({[g.1.1; g.1.2]} : gset Player) ∪ {[g.2.1; g.2.2]}); [done|].
  apply set_eq. intros x. set_unfold. tauto.
Qed.

Lemma games_from_pairs_valid (pairs : list Pair) games0 :
  games_from_pairs pairs = Some games0 → Forall valid_game games0.
Proof.
  remember (length pairs) as n eqn:Hn. revert pairs Hn games0.
  induction (lt_wf n) as [n _ IH]. intros pairs -> games0 Hgames.
  rewrite games_from_pairs_unfold in Hgames.
  destruct (decide (length pairs < 2)%nat) as [Hlen|Hlen].
  - injection Hgames as <-. constructor.
  - destruct pairs as [|pair1 rest]; [done|].
    apply try_pair2_Some in Hgames
      as (pair2 & other_games & Hin & Hfour & Hrec & ->).
    pose proof (without_shorter pair1 pair2 rest) as Hshort.
    constructor; [by apply (four_distinct_valid_game (pair1, pair2))|].
    apply (IH (length (without pair1 pair2 (pair1 :: rest))))
      with (pairs := without pair1 pair2 (pair1 :: rest)); [simpl; lia|done..].
Qed.

(** X3: every game returned by [games_from_pairs] is between four different
    players, whatever the list of pairs. *)
Theorem games_from_pairs_four_players (pairs : list Pair) games0 :
  games_from_pairs pairs = Some games0 →
  Forall (λ g, size (players_game g) = 4%nat) games0.
Proof. apply games_from_pairs_valid. Qed.

Lemma games_from_pairs_four_players_witness :
  games_from_pairs (all_pairs 8) = Some games_8 ∧
  Forall (λ g, size (players_game g) = 4%nat) games_8.
Proof.
  split; [vm_compute; reflexivity|].
  apply (games_from_pairs_four_players (all_pairs 8)). vm_compute. reflexivity.
Defined.

(** X4: on a duplicate-free list, the games returned by [games_from_pairs]
    use every pair once, except for one pair left over when the number of
    pairs is odd; there are [len(pairs) // 2] games. *)
Theorem games_from_pairs_partition (pairs : list Pair) games0 :
  NoDup pairs → games_from_pairs pairs = Some games0 →
  length games0 = (length pairs / 2)%nat ∧
  ∃ leftover, length leftover = (length pairs mod 2)%nat ∧
              partners games0 ++ leftover ≡ₚ pairs.
Proof.
  intros Hnd Hgames.
  destruct (games_from_pairs_Some _ _ Hnd Hgames) as (_ & leftover & Hleft & Hperm).
  pose proof (Permutation_length Hperm) as Hlen.
  rewrite length_app, length_partners in Hlen.
  assert (length pairs = (length leftover + length games0 * 2)%nat) as Heq by lia.
  split.
  - rewrite Heq, Nat.div_add by done. rewrite Nat.div_small by done. done.
  - exists leftover. split; [|done].
    rewrite Heq, Nat.Div0.mod_add. by rewrite Nat.mod_small.
Qed.

Lemma games_from_pairs_partition_witness :
  NoDup (all_pairs 6) ∧
  ∃ games0, games_from_pairs (all_pairs 6) = Some games0 ∧
    length games0 = (length (all_pairs 6) / 2)%nat ∧
    ∃ leftover, length leftover = (length (all_pairs 6) mod 2)%nat ∧
                partners games0 ++ leftover ≡ₚ all_pairs 6.
Proof.
  assert (NoDup (all_pairs 6)) as Hnd
    by (apply (bool_decide_unpack _); vm_compute; exact I).
  split; [exact Hnd|]. eexists. split; [vm_compute; reflexivity|].
  apply (games_from_pairs_partition (all_pairs 6));
    [exact Hnd|vm_compute; reflexivity].
Defined.

Lemma four_distinct_sym pair1 pair2 : four_distinct pair1 pair2 = four_distinct pair2 pair1.
Proof.
  unfold four_distinct. apply bool_decide_ext.
  replace (list_to_set [pair2.1; pair2.2; pair1.1; pair1.2] : gset Player)
    with (list_to_set [pair1.1; pair1.2; pair2.1; pair2.2] : gset Player); [done|].
  apply set_eq. intros x. set_unfold. tauto.
Qed.

Lemma try_pair2_complete rec pair1 pairs cands pair2 :
  pair2 ∈ cands → four_distinct pair1 pair2 = true →
  is_Some (rec (without pair1 pair2 pairs)) →
  is_Some (try_pair2 rec pair1 pairs cands).
Proof.
  intros Hin Hfour Hrec. induction cands as [|q cands IH]; [by apply elem_of_nil in Hin|].
  simpl. apply elem_of_cons in Hin as [<-|Hin].
  - rewrite Hfour. destruct Hrec as [other ->]. by eexists.
  - destruct (four_distinct pair1 q); [|by apply IH].
    destruct (rec (without pair1 q pairs)); [by eexists|by apply IH].
Qed.

(** A packing holds the first pair in one of its games; without that game
    it packs the pairs that are left. *)
Lemma packing_split pair1 rest M :
  NoDup (pair1 :: rest) → packing (pair1 :: rest) M →
  ∃ pair2 M', pair2 ∈ pair1 :: rest ∧ four_distinct pair1 pair2 = true ∧
    packing (without pair1 pair2 (pair1 :: rest)) M'.
Proof.
  intros Hnd [Hvalid Hperm].
  assert (pair1 ∈ partners M) as Hin by (rewrite Hperm; left).
  apply list_elem_of_bind in Hin as (g & Hside & Hg).
  apply list_elem_of_split in Hg as (M1 & M2 & ->).
  apply Forall_app in Hvalid as [Hv1 Hv2].
  apply Forall_cons in Hv2 as [Hg Hv2].
  apply four_distinct_valid_game in Hg.
  set (pair2 := if decide (pair1 = g.1) then g.2 else g.1).
  assert (four_distinct pair1 pair2 = true ∧
          partners (M1 ++ g :: M2) ≡ₚ pair1 :: pair2 :: partners (M1 ++ M2))
    as [Hfour Hsplit].
  { unfold partners, pair2. rewrite !bind_app, bind_cons.
    destruct (decide (pair1 = g.1)) as [->|Hne].
    - split; [done|]. solve_Permutation.
    - apply elem_of_cons in Hside as [?|Hside]; [done|].
      apply list_elem_of_singleton in Hside as ->.
      split; [by rewrite four_distinct_sym|]. solve_Permutation. }
  assert (pair2 ∈ pair1 :: rest) as Hin2
    by (rewrite <-Hperm, Hsplit; right; left).
  exists pair2, (M1 ++ M2). do 2 (split; [done|]).
  split; [by apply Forall_app|].
  apply (Permutation_cons_inv (a := pair2)), (Permutation_cons_inv (a := pair1)).
  rewrite <-Hsplit, Hperm.
  apply without_Permutation; [done|left|done|by apply four_distinct_ne].
Qed.

Lemma games_from_pairs_complete (pairs : list Pair) M :
  NoDup pairs → packing pairs M → is_Some (games_from_pairs pairs).
Proof.
  remember (length pairs) as n eqn:Hn. revert pairs Hn M.
  induction (lt_wf n) as [n _ IH]. intros pairs -> M Hnd Hpack.
  rewrite games_from_pairs_unfold.
  destruct (decide (length pairs < 2)%nat) as [Hlen|Hlen]; [by eexists|].
  destruct pairs as [|pair1 rest]; [simpl in Hlen; lia|].
  destruct (packing_split _ _ _ Hnd Hpack) as (pair2 & M' & Hin & Hfour & Hpack').
  apply (try_pair2_complete _ _ _ _ pair2); [done..|].
  pose proof (without_shorter pair1 pair2 rest) as Hshort.
  apply (IH (length (without pair1 pair2 (pair1 :: rest)))) with (M := M');
    [simpl; lia|done|by apply NoDup_filter|done].
Qed.

(** X5: the backtracking search is complete: when a duplicate-free list of
    pairs can be packed into games of four different players with no pair
    left over, [games_from_pairs] does not fail and returns such a
    packing. *)
Theorem games_from_pairs_finds_packing (pairs : list Pair) M :
  NoDup pairs → packing pairs M →
  ∃ games0, games_from_pairs pairs = Some games0 ∧ packing pairs games0.
Proof.
  intros Hnd Hpack.
  destruct (games_from_pairs_complete _ _ Hnd Hpack) as [games0 Hgames].
  exists games0. split; [done|]. split; [by eapply games_from_pairs_valid|].
  destruct (games_from_pairs_Some _ _ Hnd Hgames) as (_ & leftover & Hleft & Hperm).
  destruct Hpack as [_ HM].
  pose proof (Permutation_length Hperm) as Hlen.
  pose proof (Permutation_length HM) as HlenM.
  rewrite length_app, length_partners in Hlen. rewrite length_partners in HlenM.
  destruct leftover; [by rewrite app_nil_r in Hperm|simpl in *; lia].
Qed.

Lemma games_from_pairs_finds_packing_witness :
  NoDup [(1, 2); (1, 3); (3, 4); (2, 4)] ∧
  packing [(1, 2); (1, 3); (3, 4); (2, 4)] [((2, 4), (1, 3)); ((3, 4), (1, 2))] ∧
  ∃ games0, games_from_pairs [(1, 2); (1, 3); (3, 4); (2, 4)] = Some games0 ∧
            packing [(1, 2); (1, 3); (3, 4); (2, 4)] games0.
Proof.
  assert (NoDup [(1, 2); (1, 3); (3, 4); (2, 4)]) as Hnd
    by (apply (bool_decide_unpack _); vm_compute; exact I).
  assert (packing [(1, 2); (1, 3); (3, 4); (2, 4)]
            [((2, 4), (1, 3)); ((3, 4), (1, 2))]) as Hpack
    by (split; apply (bool_decide_unpack _); vm_compute; exact I).
  do 2 (split; [assumption|]).
  exact (games_from_pairs_finds_packing _ _ Hnd Hpack).
Defined.

(** ** [schedule_games] *)

Section schedule_more.
Context {A : Type} (pl : A → gset Player).

Lemma place_nonempty C (s : list (list A)) (x : A) :
  Forall (λ round, round ≠ []) s → Forall (λ round, round ≠ []) (place pl C s x).
Proof.
  intros Hs.
  assert (Forall (λ round : list A, round ≠ []) (s ++ [[x]])) as Hnew
    by (apply Forall_app; split; [done|by repeat constructor]).
  unfold place.
  destruct (list_find (fits pl C x) s) as [[k [|y round]]|]; try done.
  apply Forall_alter; [done|]. intros r _ _. by destruct r.
Qed.

Lemma schedule_games_nonempty C (xs : list A) :
  Forall (λ round, round ≠ []) (schedule_games pl xs C).
Proof.
  unfold schedule_games.
  assert (Forall (λ round : list A, round ≠ []) []) as Hs by constructor.
  revert Hs. generalize (@nil (list A)) as s.
  induction xs as [|x xs IH]; intros s Hs; simpl; [done|].
  by apply IH, place_nonempty.
Qed.

Lemma length_concat_nonempty (s : list (list A)) :
  Forall (λ round, round ≠ []) s → (length s ≤ length (concat s))%nat.
Proof.
  induction 1 as [|r s Hr _ IH]; [done|].
  simpl. rewrite length_app. destruct r; [done|]. simpl. lia.
Qed.

Lemma length_concat_bounded C (s : list (list A)) :
  Forall (λ round, Z.of_nat (length round) ≤ C) s →
  Z.of_nat (length (concat s)) ≤ C * Z.of_nat (length s).
Proof.
  induction 1 as [|r s Hr _ IH]; [simpl; lia|].
  simpl. rewrite length_app. lia.
Qed.

Lemma fits_snoc C (x y : A) (round : list A) :
  fits pl C y (round ++ [x]) → fits pl C y round.
Proof.
  unfold fits, players_list. rewrite length_app, fmap_app, union_list_app_L.
  intros [Hlen Hdisj]. split; [lia|].
  apply elem_of_equiv_empty_L. intros p [Hp1 Hp2]%elem_of_intersection.
  apply (not_elem_of_empty (C := gset Player) p). rewrite <-Hdisj.
  apply elem_of_intersection. split; [|done]. apply elem_of_union. by left.
Qed.

Lemma place_first_fit C (s : list (list A)) (x : A) :
  Forall (λ round, round ≠ []) s → first_fit pl C s → first_fit pl C (place pl C s x).
Proof.
  intros Hne Hff. unfold place.
  destruct (list_find (fits pl C x) s) as [[i ri]|] eqn:Hfind.
  - apply list_find_Some in Hfind as (Hi & Hfits & Hbefore).
    destruct ri as [|y0 ri0].
    { apply list_elem_of_lookup_2 in Hi. rewrite Forall_forall in Hne.
      by apply Hne in Hi. }
    intros j k rj rk y Hjk Hj Hk Hy.
    rewrite list_lookup_alter in Hj, Hk.
    destruct (decide (i = j)) as [<-|Hij]; destruct (decide (i = k)) as [<-|Hik];
      try lia.
    + rewrite Hi in Hj. injection Hj as <-.
      intros Hfit. apply (fits_snoc C x y (y0 :: ri0)) in Hfit.
      by apply (Hff i k (y0 :: ri0) rk y).
    + rewrite Hi in Hk. injection Hk as <-.
      change (y ∈ (y0 :: ri0) ++ [x]) in Hy.
      apply elem_of_app in Hy as [Hy|Hy].
      * by apply (Hff j i rj (y0 :: ri0) y).
      * apply list_elem_of_singleton in Hy as ->. by apply (Hbefore j).
    + by apply (Hff j k rj rk y).
  - apply list_find_None in Hfind. rewrite Forall_forall in Hfind.
    intros j k rj rk y Hjk Hj Hk Hy.
    apply lookup_snoc_Some in Hk as [[Hklt Hk]|[-> <-]].
    + rewrite lookup_app_l in Hj by lia. by apply (Hff j k rj rk y).
    + rewrite lookup_app_l in Hj by lia.
      apply list_elem_of_singleton in Hy as ->.
      apply Hfind. by eapply list_elem_of_lookup_2.
Qed.

Lemma first_fit_schedule_games C (xs : list A) :
  first_fit pl C (schedule_games pl xs C).
Proof.
  unfold schedule_games.
  assert (Forall (λ round : list A, round ≠ []) [] ∧ first_fit pl C []) as Hs.
  { split; [constructor|]. intros j k rj rk x _ Hj. by rewrite lookup_nil in Hj. }
  revert Hs. generalize (@nil (list A)) as s.
  induction xs as [|x xs IH]; intros s [Hne Hff]; simpl; [done|].
  apply IH. split; [by apply place_nonempty|by apply place_first_fit].
Qed.
End schedule_more.

(** X6: for [C >= 1] courts no round of [schedule_games(games, C)] is
    empty, and the number of rounds lies between [len(games) / C] and
    [len(games)]. *)
Theorem schedule_games_round_count (games0 : list Game) C :
  1 ≤ C →
  Forall (λ round, round ≠ []) (schedule_games players_game games0 C) ∧
  (length (schedule_games players_game games0 C) ≤ length games0)%nat ∧
  Z.of_nat (length games0) ≤ C * Z.of_nat (length (schedule_games players_game games0 C)).
Proof.
  intros HC.
  pose proof (schedule_games_nonempty players_game C games0) as Hne.
  pose proof (Permutation_length (concat_schedule_games players_game C games0)) as Hlen.
  split; [done|]. split.
  - rewrite <-Hlen. by apply length_concat_nonempty.
  - rewrite <-Hlen. apply length_concat_bounded.
    eapply Forall_impl; [by apply schedule_games_round_ok|].
    by intros round [? _].
Qed.

Lemma schedule_games_round_count_witness :
  1 ≤ 2 ∧
  Forall (λ round, round ≠ []) (schedule_games players_game games_8 2) ∧
  (length (schedule_games players_game games_8 2) ≤ length games_8)%nat ∧
  Z.of_nat (length games_8) ≤ 2 * Z.of_nat (length (schedule_games players_game games_8 2)).
Proof. split; [lia|]. apply (schedule_games_round_count games_8 2). lia. Defined.

(** X7: [schedule_games] is first fit: when a game sits in a round, no
    earlier round of the schedule has both room for it (fewer than [C]
    games) and no player in common with it. *)
Theorem schedule_games_first_fit (games0 : list Game) C :
  ∀ j k rj rk x,
    (j < k)%nat →
    schedule_games players_game games0 C !! j = Some rj →
    schedule_games players_game games0 C !! k = Some rk →
    x ∈ rk →
    ¬ (Z.of_nat (length rj) < C ∧ players_list players_game rj ∩ players_game x = ∅).
Proof. apply first_fit_schedule_games. Qed.

Lemma schedule_games_first_fit_witness :
  (0 < 1)%nat ∧
  schedule_games players_game games_8 2 !! 0%nat
    = Some [((1, 2), (3, 4)); ((5, 6), (7, 8))] ∧
  schedule_games players_game games_8 2 !! 1%nat
    = Some [((1, 3), (2, 4)); ((5, 7), (6, 8))] ∧
  ((1, 3), (2, 4)) ∈ [((1, 3), (2, 4)); ((5, 7), (6, 8))] ∧
  ¬ (Z.of_nat (length [((1, 2), (3, 4)); ((5, 6), (7, 8))]) < 2 ∧
     players_list players_game [((1, 2), (3, 4)); ((5, 6), (7, 8))]
       ∩ players_game ((1, 3), (2, 4)) = ∅).
Proof.
  split; [lia|]. split; [vm_compute; reflexivity|].
  split; [vm_compute; reflexivity|]. split; [left|].
  apply (schedule_games_first_fit games_8 2 0%nat 1%nat _
           [((1, 3), (2, 4)); ((5, 7), (6, 8))]);
    [lia|vm_compute; reflexivity|vm_compute; reflexivity|left].
Defined.

(** ** The table of opponent counts *)

(** X8: [opponent_counts(games)] holds exactly the keys that the games
    produce at least once, each with the number of times it is produced;
    every count in the table is positive. *)
Theorem opponent_counts_lookup (games0 : list Game) k c :
  opponent_counts games0 !! k = Some c ↔
  c = occurrences k (oppositions games0) ∧ 0 < c.
Proof.
  unfold opponent_counts. rewrite Counter_lookup.
  destruct (decide (k ∈ oppositions games0)) as [Hin|Hin].
  - pose proof (occurrences_pos _ _ Hin). split.
    + intros [= <-]. done.
    + by intros [-> _].
  - rewrite (occurrences_absent _ _ Hin). split; [done|]. intros [-> ?]. lia.
Qed.

Lemma pairing_comm p q : pairing p q = pairing q p.
Proof.
  unfold pairing. destruct (decide (p ≤ q)), (decide (q ≤ p)); try done.
  - f_equal; lia.
  - lia.
Qed.

Lemma pairing_diag a b p : pairing a b = (p, p) → a = p ∧ b = p.
Proof. unfold pairing. destruct (decide (a ≤ b)); by intros [= -> ->]. Qed.

Lemma size_list_to_set_le (l : list Player) :
  (size (list_to_set l : gset Player) ≤ length l)%nat.
Proof.
  induction l as [|x l IH]; [done|].
  cbn [list_to_set foldr length]. rewrite size_union_alt, size_singleton.
  assert (size ((list_to_set l : gset Player) ∖ {[x]}) ≤ size (list_to_set l : gset Player))%nat
    by (apply subseteq_size, subseteq_difference_l; done).
  lia.
Qed.

Lemma size_list_to_set_NoDup (l : list Player) :
  size (list_to_set l : gset Player) = length l → NoDup l.
Proof.
  induction l as [|x l IH]; [constructor|].
  cbn [list_to_set foldr length]. intros Hsize.
  pose proof (size_list_to_set_le l) as Hle.
  destruct (decide (x ∈ l)) as [Hin|Hin].
  - exfalso.
    assert (({[x]} : gset Player) ∪ list_to_set l = list_to_set l) as Heq.
    { apply set_eq. intros y. rewrite elem_of_union, elem_of_singleton.
      rewrite elem_of_list_to_set. split; [intros [->|?]; done|by right]. }
    rewrite Heq in Hsize. lia.
  - constructor; [done|]. apply IH.
    rewrite size_union, size_singleton in Hsize; [lia|].
    intros y Hy1%elem_of_singleton Hy2%elem_of_list_to_set. by subst.
Qed.

(** The four players of a valid game are different. *)
Lemma valid_game_NoDup (g : Game) :
  valid_game g → NoDup [g.1.1; g.1.2; g.2.1; g.2.2].
Proof.
  intros Hg%four_distinct_valid_game. unfold four_distinct in Hg.
  apply bool_decide_eq_true in Hg. by apply size_list_to_set_NoDup.
Qed.

Lemma valid_game_sides_differ a1 a2 b1 b2 :
  valid_game ((a1, a2), (b1, b2)) →
  a1 ≠ a2 ∧ a1 ≠ b1 ∧ a1 ≠ b2 ∧ a2 ≠ b1 ∧ a2 ≠ b2 ∧ b1 ≠ b2.
Proof.
  intros Hnd%valid_game_NoDup. simpl in Hnd.
  apply NoDup_cons in Hnd as [H1 Hnd]. apply NoDup_cons in Hnd as [H2 Hnd].
  apply NoDup_cons in Hnd as [H3 _].
  apply not_elem_of_cons in H1 as [? H1]. apply not_elem_of_cons in H1 as [? H1].
  apply not_elem_of_cons in H1 as [? _].
  apply not_elem_of_cons in H2 as [? H2]. apply not_elem_of_cons in H2 as [? _].
  apply not_elem_of_cons in H3 as [? _]. done.
Qed.

(** X9: the table of opponent counts is symmetric, and when every game is
    between four different players nobody opposes himself. *)
Theorem opposed_symmetric (games0 : list Game) p q :
  Forall valid_game games0 →
  opposed games0 p q = opposed games0 q p ∧ opposed games0 p p = 0.
Proof.
  intros Hvalid. unfold opposed. split; [by rewrite pairing_comm|].
  unfold opponent_counts. rewrite count_of_Counter.
  apply occurrences_absent. intros Hin.
  assert (pairing p p = (p, p)) as Hpp by (apply pairing_id; lia).
  rewrite Hpp in Hin.
  apply list_elem_of_bind in Hin as ([[a1 a2] [b1 b2]] & Hk & Hg).
  rewrite Forall_forall in Hvalid. apply Hvalid in Hg.
  apply valid_game_sides_differ in Hg as (_ & ? & ? & ? & ? & _).
  repeat (apply elem_of_cons in Hk as [Hk|Hk];
          [symmetry in Hk; apply pairing_diag in Hk as [-> ->]; done|]).
  by apply elem_of_nil in Hk.
Qed.

Lemma opposed_symmetric_witness :
  Forall valid_game games_8 ∧
  opposed games_8 1 5 = opposed games_8 5 1 ∧ opposed games_8 1 1 = 0.
Proof.
  assert (Forall valid_game games_8) as Hvalid
    by (apply (bool_decide_unpack _); vm_compute; exact I).
  split; [exact Hvalid|]. exact (opposed_symmetric games_8 1 5 Hvalid).
Defined.

Section counter_sums.
Context `{Countable K}.

Lemma total_count_insert (m : gmap K Z) k c :
  m !! k = None → total_count (<[k := c]> m) = total_count m + c.
Proof.
  intros Hk. unfold total_count.
  rewrite map_fold_insert_L; [done| |done]. intros. lia.
Qed.

Lemma total_count_Counter (keys : list K) :
  total_count (Counter keys) = Z.of_nat (length keys).
Proof.
  induction keys as [|k keys IH] using rev_ind; [done|].
  rewrite Counter_snoc, length_app. cbn [length].
  unfold count_of. destruct (Counter keys !! k) as [c|] eqn:Hk; simpl.
  - rewrite <-insert_delete_eq.
    rewrite total_count_insert by apply lookup_delete_eq.
    rewrite <-(insert_delete_id (Counter keys) k c) in IH by done.
    rewrite total_count_insert in IH by apply lookup_delete_eq. lia.
  - rewrite total_count_insert by done. lia.
Qed.

Lemma occurrences_Permutation (k : K) (keys keys' : list K) :
  keys ≡ₚ keys' → occurrences k keys = occurrences k keys'.
Proof. intros Hperm. unfold occurrences. by rewrite Hperm. Qed.

Lemma Counter_Permutation (keys keys' : list K) :
  keys ≡ₚ keys' → Counter keys = Counter keys'.
Proof.
  intros Hperm. apply map_eq. intros k. rewrite !Counter_lookup.
  rewrite (occurrences_Permutation k _ _ Hperm).
  destruct (decide (k ∈ keys)) as [Hin|Hin].
  - by rewrite decide_True by (by rewrite <-Hperm).
  - by rewrite decide_False by (by rewrite <-Hperm).
Qed.
End counter_sums.

Lemma length_oppositions games0 :
  length (oppositions games0) = (4 * length games0)%nat.
Proof.
  induction games0 as [|[[a1 a2] [b1 b2]] l IH]; [done|].
  change (oppositions (((a1, a2), (b1, b2)) :: l))
    with ([pairing a1 b1; pairing a1 b2; pairing a2 b1; pairing a2 b2] ++ oppositions l).
  rewrite length_app, IH. simpl. lia.
Qed.

(** X10: the counts of [opponent_counts(games)] add up to four times the
    number of games: every game adds four oppositions to the table. *)
Theorem opponent_counts_total (games0 : list Game) :
  total_count (opponent_counts games0) = 4 * Z.of_nat (length games0).
Proof.
  unfold opponent_counts. rewrite total_count_Counter, length_oppositions. lia.
Qed.

Lemma oppositions_Permutation games0 games1 :
  games0 ≡ₚ games1 → oppositions games0 ≡ₚ oppositions games1.
Proof.
  unfold oppositions. induction 1 as [|g l l' _ IH|g g' l|l1 l2 l3 _ IH1 _ IH2].
  - done.
  - rewrite !bind_cons. by rewrite IH.
  - rewrite !bind_cons. solve_Permutation.
  - by rewrite IH1.
Qed.

Lemma total_difference_nonneg (games0 : list Game) optimal :
  0 ≤ total_difference games0 optimal.
Proof.
  unfold total_difference.
  apply (map_fold_weak_ind (λ r _, 0 ≤ r)); [done|].
  intros k c m r _ Hr. pose proof (cube_abs_nonneg c optimal). lia.
Qed.

Lemma total_difference_Permutation (games0 games1 : list Game) optimal :
  games0 ≡ₚ games1 → total_difference games0 optimal = total_difference games1 optimal.
Proof.
  intros Hperm. unfold total_difference, opponent_counts.
  by rewrite (Counter_Permutation _ _ (oppositions_Permutation _ _ Hperm)).
Qed.

(** X11: [total_difference] is never negative, and it depends on the games
    only, not on their order in the list. *)
Theorem total_difference_order (games0 games1 : list Game) optimal :
  games0 ≡ₚ games1 →
  total_difference games0 optimal = total_difference games1 optimal ∧
  0 ≤ total_difference games0 optimal.
Proof.
  intros Hperm. split; [by apply total_difference_Permutation|].
  apply total_difference_nonneg.
Qed.

Lemma total_difference_order_witness :
  games_8 ≡ₚ reverse games_8 ∧
  total_difference games_8 2 = total_difference (reverse games_8) 2 ∧
  0 ≤ total_difference games_8 2.
Proof.
  assert (games_8 ≡ₚ reverse games_8) as Hperm
    by (apply (bool_decide_unpack _); vm_compute; exact I).
  split; [exact Hperm|]. exact (total_difference_order _ _ 2 Hperm).
Defined.

(** ** The rows of the table printed by [report] *)

Lemma sum_Z_cons x (l : list Z) : sum_Z (x :: l) = x + sum_Z l.
Proof. done. Qed.

Lemma sum_Z_fmap_add {A} (f g : A → Z) (l : list A) :
  sum_Z ((λ x, f x + g x) <$> l) = sum_Z (f <$> l) + sum_Z (g <$> l).
Proof.
  induction l as [|x l IH]; [done|]. rewrite !fmap_cons, !sum_Z_cons. lia.
Qed.

Lemma sum_Z_fmap_zero {A} (f : A → Z) (l : list A) :
  (∀ x, x ∈ l → f x = 0) → sum_Z (f <$> l) = 0.
Proof.
  induction l as [|x l IH]; [done|]. intros Hf. rewrite fmap_cons, sum_Z_cons.
  rewrite (Hf x) by left. rewrite IH; [done|]. intros y Hy. apply Hf. by right.
Qed.

Lemma occurrences_app `{EqDecision K} (k : K) (keys1 keys2 : list K) :
  occurrences k (keys1 ++ keys2) = occurrences k keys1 + occurrences k keys2.
Proof. unfold occurrences. rewrite filter_app, length_app. lia. Qed.

Lemma occurrences_singleton `{EqDecision K} (k x : K) :
  occurrences k [x] = indicator (k = x).
Proof.
  unfold occurrences, indicator. rewrite (filter_cons _ x []), filter_nil.
  by destruct (decide (k = x)).
Qed.

Lemma pairing_eq row col a b :
  pairing row col = pairing a b ↔ row = a ∧ col = b ∨ row = b ∧ col = a.
Proof.
  unfold pairing.
  destruct (decide (row ≤ col)), (decide (a ≤ b)); split;
    try (intros [= -> ->]; tauto); intros [[-> ->]|[-> ->]]; try done;
    f_equal; lia.
Qed.

(** In a duplicate-free list a value is met once if it is there, never
    otherwise. *)
Lemma sum_Z_indicator_eq (x : Player) (l : list Player) :
  NoDup l → sum_Z ((λ col, indicator (col = x)) <$> l) = indicator (x ∈ l).
Proof.
  unfold indicator. induction 1 as [|y l Hy _ IH].
  - by rewrite decide_False by apply not_elem_of_nil.
  - rewrite fmap_cons, sum_Z_cons, IH. destruct (decide (y = x)) as [->|Hne].
    + rewrite decide_False by done. by rewrite decide_True by left.
    + destruct (decide (x ∈ l)) as [Hin|Hin].
      * by rewrite decide_True by (by right).
      * rewrite decide_False; [done|]. by intros [?|?]%elem_of_cons.
Qed.

Section row_sums.
Context (people : list Player) (row : Player).

Lemma row_sum_keys_sum games0 :
  row_sum games0 people row = keys_sum people row (oppositions games0).
Proof.
  unfold row_sum, keys_sum. f_equal. apply list_fmap_ext. intros _ col _.
  unfold opposed, opponent_counts. apply count_of_Counter.
Qed.

Lemma keys_sum_app keys1 keys2 :
  keys_sum people row (keys1 ++ keys2)
  = keys_sum people row keys1 + keys_sum people row keys2.
Proof.
  unfold keys_sum. rewrite <-sum_Z_fmap_add. f_equal.
  apply list_fmap_ext. intros _ col _. apply occurrences_app.
Qed.

(** One opposition of [a] and [b] adds one to the row of [a] and one to
    the row of [b]. *)
Lemma keys_sum_singleton a b :
  NoDup people → a ∈ people → b ∈ people → a ≠ b →
  keys_sum people row [pairing a b] = indicator (row = a) + indicator (row = b).
Proof.
  intros Hnd Ha Hb Hab. unfold keys_sum.
  destruct (decide (row = a)) as [->|Hra]; [|destruct (decide (row = b)) as [->|Hrb]].
  - rewrite (list_fmap_ext _ (λ col, indicator (col = b))).
    + rewrite sum_Z_indicator_eq by done. unfold indicator.
      repeat case_decide; done.
    + intros _ col _. rewrite occurrences_singleton. unfold indicator.
      destruct (decide (col = b)) as [->|Hne]; [by rewrite decide_True|].
      rewrite decide_False; [done|]. rewrite pairing_eq. intros [[_ ?]|[? _]]; done.
  - rewrite (list_fmap_ext _ (λ col, indicator (col = a))).
    + rewrite sum_Z_indicator_eq by done. unfold indicator.
      repeat case_decide; done.
    + intros _ col _. rewrite occurrences_singleton. unfold indicator.
      destruct (decide (col = a)) as [->|Hne].
      * rewrite decide_True; [done|]. rewrite pairing_eq. by right.
      * rewrite decide_False; [done|]. rewrite pairing_eq. intros [[? _]|[_ ?]]; done.
  - rewrite sum_Z_fmap_zero.
    + unfold indicator. repeat case_decide; done.
    + intros col _. rewrite occurrences_singleton. unfold indicator.
      rewrite decide_False; [done|]. rewrite pairing_eq. intros [[? _]|[? _]]; done.
Qed.

Lemma keys_sum_game a1 a2 b1 b2 :
  NoDup people → valid_game ((a1, a2), (b1, b2)) →
  players_game ((a1, a2), (b1, b2)) ⊆ list_to_set people →
  keys_sum people row [pairing a1 b1; pairing a1 b2; pairing a2 b1; pairing a2 b2]
  = 2 * indicator (row ∈ players_game ((a1, a2), (b1, b2))).
Proof.
  intros Hnd Hvalid Hsub.
  apply valid_game_sides_differ in Hvalid as (H12 & H13 & H14 & H23 & H24 & H34).
  assert (a1 ∈ people ∧ a2 ∈ people ∧ b1 ∈ people ∧ b2 ∈ people) as (Ha1 & Ha2 & Hb1 & Hb2).
  { unfold players_game, players_pair in Hsub. simpl in Hsub.
    repeat split; apply (elem_of_list_to_set (C := gset Player)), Hsub;
      rewrite !elem_of_union, !elem_of_singleton; tauto. }
  change [pairing a1 b1; pairing a1 b2; pairing a2 b1; pairing a2 b2]
    with ([pairing a1 b1] ++ [pairing a1 b2] ++ [pairing a2 b1] ++ [pairing a2 b2]).
  rewrite !keys_sum_app, !keys_sum_singleton by done.
  unfold indicator, players_game, players_pair. simpl.
  destruct (decide (row ∈ ({[a1; a2]} : gset Player) ∪ {[b1; b2]})) as [Hin|Hin].
  - rewrite !elem_of_union, !elem_of_singleton in Hin.
    unfold Player in *.
    repeat case_decide; destruct Hin as [[?|?]|[?|?]]; lia.
  - rewrite !elem_of_union, !elem_of_singleton in Hin. unfold Player in *.
    repeat case_decide; first [lia|tauto].
Qed.

Lemma row_sum_played games0 :
  NoDup people → Forall valid_game games0 →
  players_list players_game games0 ⊆ list_to_set people →
  row_sum games0 people row = 2 * games_played games0 row.
Proof.
  intros Hnd Hvalid Hsub. rewrite row_sum_keys_sum.
  induction Hvalid as [|[[a1 a2] [b1 b2]] l Hg _ IH].
  - unfold keys_sum. simpl. by apply sum_Z_fmap_zero.
  - change (oppositions (((a1, a2), (b1, b2)) :: l))
      with ([pairing a1 b1; pairing a1 b2; pairing a2 b1; pairing a2 b2] ++ oppositions l).
    unfold players_list in Hsub. rewrite fmap_cons, union_list_cons in Hsub.
    assert (players_game ((a1, a2), (b1, b2)) ⊆ list_to_set people) as Hgsub
      by (intros p Hp; apply Hsub, elem_of_union; by left).
    assert (players_list players_game l ⊆ list_to_set people) as Hlsub
      by (intros p Hp; apply Hsub, elem_of_union; by right).
    rewrite keys_sum_app, (IH Hlsub), (keys_sum_game _ _ _ _ Hnd Hg Hgsub).
    unfold games_played, indicator. rewrite filter_cons.
    repeat case_decide; try done; cbn [length]; lia.
Qed.
End row_sums.

(** X12: in the table of [report], where the columns are the players of
    the games, each once, and every game is between four different
    players, the counts of a row add up to twice the number of games its
    player plays in (the column Games shows half of the sum). *)
Theorem row_sum_games_played (games0 : list Game) (people : list Player) row :
  Forall valid_game games0 → NoDup people →
  players_list players_game games0 ⊆ list_to_set people →
  row_sum games0 people row = 2 * games_played games0 row.
Proof. intros Hvalid Hnd Hsub. by apply row_sum_played. Qed.

Lemma row_sum_games_played_witness :
  Forall valid_game games_8 ∧ NoDup (seqZ 1 8) ∧
  players_list players_game games_8 ⊆ list_to_set (seqZ 1 8) ∧
  row_sum games_8 (seqZ 1 8) 3 = 2 * games_played games_8 3.
Proof.
  assert (Forall valid_game games_8) as Hvalid
    by (apply (bool_decide_unpack _); vm_compute; exact I).
  assert (NoDup (seqZ 1 8)) as Hnd
    by (apply (bool_decide_unpack _); vm_compute; exact I).
  assert (players_list players_game games_8 ⊆ list_to_set (seqZ 1 8)) as Hsub
    by (apply (bool_decide_unpack _); vm_compute; exact I).
  do 3 (split; [assumption|]).
  exact (row_sum_games_played games_8 (seqZ 1 8) 3 Hvalid Hnd Hsub).
Defined.

(** ** [swap] *)

(** X13: swapping the same two slots twice gives the game list back. *)
Theorem swap_twice games0 idx games2 :
  swap games0 idx = Ok games2 → swap games2 idx = Ok games0.
Proof. apply swap_swap. Qed.

Lemma swap_twice_witness :
  swap games_8 ((0%nat, 11%nat), (true, false))
    = Ok (<[0%nat := ((1, 2), (5, 6))]> (<[11%nat := ((3, 4), (7, 8))]> games_8)) ∧
  swap (<[0%nat := ((1, 2), (5, 6))]> (<[11%nat := ((3, 4), (7, 8))]> games_8))
       ((0%nat, 11%nat), (true, false)) = Ok games_8.
Proof.
  split; [vm_compute; reflexivity|].
  apply (swap_twice games_8 ((0%nat, 11%nat), (true, false))).
  vm_compute. reflexivity.
Defined.


(** X15: a swap between two different games writes the pair read from the
    one game into the chosen slot of the other, and leaves every other game
    as it was. *)
Theorem swap_effect games0 g1 g2 s1 s2 games2 :
  swap games0 ((g1, g2), (s1, s2)) = Ok games2 → g1 ≠ g2 →
  (∃ x1 x2, games0 !! g1 = Some x1 ∧ games0 !! g2 = Some x2 ∧
            games2 !! g1 = Some (side_set x1 s1 (side_get x2 s2)) ∧
            games2 !! g2 = Some (side_set x2 s2 (side_get x1 s1))) ∧
  ∀ k, k ≠ g1 → k ≠ g2 → games2 !! k = games0 !! k.
Proof.
  intros (x1 & x2 & y2 & H1 & H2 & Hy & _ & ->)%swap_Ok Hne.
  rewrite list_lookup_insert_ne in Hy by done.
  assert (y2 = x2) as -> by congruence.
  pose proof (lookup_lt_Some _ _ _ H1). pose proof (lookup_lt_Some _ _ _ H2).
  split.
  - exists x1, x2. do 2 (split; [done|]). split.
    + rewrite list_lookup_insert_ne by done. by apply list_lookup_insert_eq.
    + apply list_lookup_insert_eq. by rewrite length_insert.
  - intros k Hk1 Hk2. by rewrite !list_lookup_insert_ne by done.
Qed.

Lemma swap_effect_witness :
  ∃ games2, swap games_8 ((0%nat, 11%nat), (true, false)) = Ok games2 ∧
    0%nat ≠ 11%nat ∧
    (∃ x1 x2, games_8 !! 0%nat = Some x1 ∧ games_8 !! 11%nat = Some x2 ∧
              games2 !! 0%nat = Some (side_set x1 true (side_get x2 false)) ∧
              games2 !! 11%nat = Some (side_set x2 false (side_get x1 true))) ∧
    ∀ k, k ≠ 0%nat → k ≠ 11%nat → games2 !! k = games_8 !! k.
Proof.
  eexists. split; [vm_compute; reflexivity|]. split; [lia|].
  apply (swap_effect games_8 0 11 true false); [vm_compute; reflexivity|lia].
Defined.

(** ** [tournament2] *)

Lemma iteration_valid_games C d st st' :
  iteration C d st = Ok st' →
  Forall valid_game (games st) → Forall valid_game (games st').
Proof.
  intros (games1 & Hswap & [[Hacc ->]|[_ ->]])%iteration_Ok Hvalid; [|done].
  destruct Hacc as (_ & (gi & Hi & Hgi) & (gj & Hj & Hgj) & _). simpl.
  destruct (sample d) as [g1 g2], (sides d) as [s1 s2]. simpl in Hi, Hj.
  apply swap_Ok in Hswap as (x1 & x2 & y2 & _ & _ & _ & _ & Heq).
  apply Forall_lookup_2. intros k g Hk.
  destruct (decide (k = g1)) as [->|Hk1]; [unfold valid_game; congruence|].
  destruct (decide (k = g2)) as [->|Hk2]; [unfold valid_game; congruence|].
  rewrite Heq, !list_lookup_insert_ne in Hk by done.
  by eapply Forall_lookup_1.
Qed.

Lemma iteration_length C d st st' :
  iteration C d st = Ok st' → length (games st') = length (games st).
Proof.
  intros (games1 & Hswap & [[_ ->]|[_ ->]])%iteration_Ok; [|done].
  by apply swap_length in Hswap.
Qed.

Lemma loop_valid_games P C tries rnd st st' :
  loop P C tries rnd st = Ok st' →
  Forall valid_game (games st) → Forall valid_game (games st').
Proof.
  apply (loop_ind P C (λ st st',
    Forall valid_game (games st) → Forall valid_game (games st'))).
  - done.
  - auto.
  - apply iteration_valid_games.
Qed.

Lemma loop_length P C tries rnd st st' :
  loop P C tries rnd st = Ok st' → length (games st') = length (games st).
Proof.
  apply (loop_ind P C (λ st st', length (games st') = length (games st))).
  - done.
  - intros st1 st2 st3 H12 H23. by rewrite H23.
  - apply iteration_length.
Qed.

(** X16: every game of a schedule returned by [tournament2] is between
    four different players: the swaps that are kept never put a player
    twice in a game. *)
Theorem tournament2_valid_games P C tries rnd schedule :
  tournament2 P C tries rnd = Ok schedule →
  Forall (Forall (λ g, size (players_game g) = 4%nat)) schedule.
Proof.
  intros (games0 & st & Hgames & Hloop & ->)%tournament2_Ok.
  apply Forall_concat. rewrite concat_schedule_games.
  apply (loop_valid_games _ _ _ _ _ _ Hloop). simpl.
  by eapply games_from_pairs_valid.
Qed.

Lemma tournament2_valid_games_witness :
  ∃ schedule, tournament2 8 2 3 draws_8 = Ok schedule ∧
    Forall (Forall (λ g, size (players_game g) = 4%nat)) schedule.
Proof.
  eexists. split; [vm_compute; reflexivity|].
  apply (tournament2_valid_games 8 2 3 draws_8). vm_compute. reflexivity.
Defined.

(** X17: a schedule returned by [tournament2] for [C >= 1] courts has at
    most [C] games in a round and no player twice in a round, and the
    partner pairs of its games are those of the games that
    [games_from_pairs] made. *)
Theorem tournament2_schedule_ok P C tries rnd games0 schedule :
  1 ≤ C → games_from_pairs (all_pairs P) = Some games0 →
  tournament2 P C tries rnd = Ok schedule →
  Forall (round_ok players_game C) schedule ∧
  partners (concat schedule) ≡ₚ partners games0.
Proof.
  intros HC Hgames (games0' & st & Hgames' & Hloop & ->)%tournament2_Ok.
  assert (games0' = games0) as -> by congruence.
  split; [by apply schedule_games_round_ok|].
  apply loop_partners in Hloop. simpl in Hloop. rewrite <-Hloop.
  unfold partners. by rewrite (concat_schedule_games players_game C (games st)).
Qed.

Lemma tournament2_schedule_ok_witness :
  1 ≤ 2 ∧ games_from_pairs (all_pairs 8) = Some games_8 ∧
  ∃ schedule, tournament2 8 2 3 draws_8 = Ok schedule ∧
    Forall (round_ok players_game 2) schedule ∧
    partners (concat schedule) ≡ₚ partners games_8.
Proof.
  split; [lia|]. split; [vm_compute; reflexivity|].
  eexists. split; [vm_compute; reflexivity|].
  apply (tournament2_schedule_ok 8 2 3 draws_8);
    [lia|vm_compute; reflexivity|vm_compute; reflexivity].
Defined.

(** X18: a schedule returned by [tournament2] has no more rounds than the
    schedule of [tournament], and its games have no larger
    [total_difference]. *)
Theorem tournament2_not_worse P C tries rnd plain improved :
  tournament P C = Ok plain → tournament2 P C tries rnd = Ok improved →
  (length improved ≤ length plain)%nat ∧
  total_difference (concat improved) 2 ≤ total_difference (concat plain) 2.
Proof.
  unfold tournament, tournament2.
  destruct (games_from_pairs (all_pairs P)) as [games0|]; [|done].
  intros [= <-] Himproved.
  destruct (loop P C (Z.to_nat tries) rnd (initial games0 C)) as [st|] eqn:Hloop;
    [|done].
  cbn [mbind result_bind] in Himproved. injection Himproved as <-.
  pose proof (loop_monotone _ _ _ _ _ _ Hloop) as [Hdiff Hlen].
  pose proof (loop_coherent _ _ _ _ _ _ Hloop) as [Hsched Hd]; [done|].
  simpl in Hdiff, Hlen. split.
  - unfold view. rewrite length_fmap.
    rewrite <-(view_sched_refs games0 C). unfold view. by rewrite length_fmap.
  - rewrite Hsched, view_sched_refs.
    rewrite (total_difference_Permutation _ _ 2
               (concat_schedule_games players_game C (games st))).
    rewrite (total_difference_Permutation _ _ 2
               (concat_schedule_games players_game C games0)).
    by rewrite <-Hd.
Qed.

Lemma tournament2_not_worse_witness :
  ∃ plain improved,
    tournament 8 2 = Ok plain ∧ tournament2 8 2 3 draws_8 = Ok improved ∧
    (length improved ≤ length plain)%nat ∧
    total_difference (concat improved) 2 ≤ total_difference (concat plain) 2.
Proof.
  do 2 eexists. split; [vm_compute; reflexivity|].
  split; [vm_compute; reflexivity|].
  apply (tournament2_not_worse 8 2 3 draws_8); vm_compute; reflexivity.
Defined.








Lemma ceil_div_le a b r : 0 < b → a ≤ b * r → ceil_div a b ≤ r.
Proof.
  intros Hb Hab. unfold ceil_div.
  assert (- r ≤ - a / b); [|lia].
  apply Z.div_le_lower_bound; lia.
Qed.

(** X20: when [P * (P - 1)] is divisible by 4, no schedule returned by
    [tournament2] for [C >= 1] courts has fewer rounds than the number
    [ceil(P * (P - 1) / 4 / C)] that [is_optimal] asks for. *)
Theorem tournament2_round_bound P C tries rnd schedule :
  0 ≤ P → (P * (P - 1)) mod 4 = 0 → 1 ≤ C →
  tournament2 P C tries rnd = Ok schedule →
  ceil_div (P * (P - 1)) (4 * C) ≤ Z.of_nat (length schedule).
Proof.
  intros HP Hmod HC (games0 & st & Hgames & Hloop & ->)%tournament2_Ok.
  apply loop_length in Hloop. simpl in Hloop.
  destruct (games_from_pairs_Some _ _ (NoDup_all_pairs P) Hgames)
    as (_ & leftover & Hleft & Hperm).
  pose proof (length_all_pairs P HP) as Hpairs.
  rewrite <-Hperm, length_app, length_partners in Hpairs.
  assert (4 * Z.of_nat (length games0) = P * (P - 1)) as Hcount.
  { destruct leftover as [|? [|? ?]]; cbn [length] in *; [lia| |lia].
    exfalso. rewrite <-Hpairs in Hmod.
    replace (2 * Z.of_nat (2 * length games0 + 1))
      with (2 + Z.of_nat (length games0) * 4) in Hmod by lia.
    by rewrite Z_mod_plus_full in Hmod. }
  apply ceil_div_le; [lia|].
  pose proof (schedule_games_round_ok players_game C (games st) HC) as Hok.
  pose proof (Permutation_length (concat_schedule_games players_game C (games st))) as Hlen.
  assert (Z.of_nat (length (concat (schedule_games players_game (games st) C)))
          ≤ C * Z.of_nat (length (schedule_games players_game (games st) C))) as Hle.
  { apply length_concat_bounded. eapply Forall_impl; [exact Hok|]. by intros r [? _]. }
  rewrite Hlen, Hloop in Hle. lia.
Qed.

Lemma tournament2_round_bound_witness :
  0 ≤ 8 ∧ (8 * (8 - 1)) mod 4 = 0 ∧ 1 ≤ 2 ∧
  ∃ schedule, tournament2 8 2 3 draws_8 = Ok schedule ∧
    ceil_div (8 * (8 - 1)) (4 * 2) ≤ Z.of_nat (length schedule).
Proof.
  split; [lia|]. split; [reflexivity|]. split; [lia|].
  eexists. split; [vm_compute; reflexivity|].
  apply (tournament2_round_bound 8 2 3 draws_8);
    [lia|reflexivity|lia|vm_compute; reflexivity].
Defined.

(** ** [name] and [str_from_round] *)

(** X21: [name(player)] returns a string of one character exactly for the
    players from -36 to 35, and raises [IndexError] for every other
    player. *)
Theorem name_range (player : Player) :
  ((∃ s, name player = Ok s ∧ String.length s = 1%nat) ↔ -36 ≤ player ≤ 35) ∧
  (name player = Raise IndexError ↔ ¬ (-36 ≤ player ≤ 35)).
Proof.
  unfold name, str_index. change (Z.of_nat (String.length alphabet)) with 36.
  cbv zeta.
  set (j := if decide (player < 0) then player + 36 else player).
  assert (0 ≤ j < 36 ↔ -36 ≤ player ≤ 35) as Hj
    by (unfold j; destruct (decide (player < 0)); lia).
  destruct (decide (0 ≤ j < 36)) as [Hin|Hout].
  - assert (Z.to_nat j < 36)%nat as Hlt by lia.
    revert Hlt. generalize (Z.to_nat j). intros n Hlt.
    assert (∃ c, String.get n alphabet = Some c) as [c ->].
    { do 36 (destruct n as [|n]; [by eexists|]). lia. }
    cbn [mbind result_bind]. split; split; try done.
    + by intros _; apply Hj.
    + intros _. by eexists.
    + intros Hn. destruct Hn. by apply Hj.
  - cbn [mbind result_bind]. split; split; try done.
    + by intros (s & ? & _).
    + intros Hr. destruct Hout. by apply Hj.
    + intros _ Hr. destruct Hout. by apply Hj.
Qed.

Lemma names_NoDup : NoDup ((λ k, name (Z.of_nat k)) <$> seq 0 36).
Proof. apply (bool_decide_unpack _). vm_compute. exact I. Qed.

Lemma name_inj p q : has_name p → has_name q → name p = name q → p = q.
Proof.
  unfold has_name. intros Hp Hq Heq.
  assert (Z.to_nat p = Z.to_nat q); [|lia].
  apply (NoDup_lookup _ _ _ (name p) names_NoDup).
  - rewrite list_lookup_fmap, lookup_seq_lt by lia. simpl. f_equal. f_equal. lia.
  - rewrite list_lookup_fmap, lookup_seq_lt by lia. simpl. rewrite Heq.
    f_equal. f_equal. lia.
Qed.

(** X22: the players from 0 to 35 have different names. *)
Theorem name_distinct p q :
  0 ≤ p ≤ 35 → 0 ≤ q ≤ 35 → name p = name q → p = q.
Proof. apply name_inj. Qed.

Lemma name_distinct_witness :
  0 ≤ 10 ≤ 35 ∧ name 10 = name 10 ∧ 10 = 10.
Proof.
  split; [lia|]. split; [vm_compute; reflexivity|].
  apply (name_distinct 10 10); [lia|lia|vm_compute; reflexivity].
Defined.

Lemma name_char_of p : has_name p → name p = Ok (String (char_of p) "").
Proof.
  intros Hp. unfold char_of.
  assert (Z.to_nat p < 36)%nat as Hlt by (unfold has_name in Hp; lia).
  rewrite <-(Z2Nat.id p) by (unfold has_name in Hp; lia).
  revert Hlt. generalize (Z.to_nat p). intros n Hlt.
  do 36 (destruct n as [|n]; [done|]). lia.
Qed.

Lemma char_of_inj p q : has_name p → has_name q → char_of p = char_of q → p = q.
Proof.
  intros Hp Hq Heq. apply name_inj; [done..|].
  by rewrite !name_char_of, Heq by done.
Qed.

Lemma str_from_game_named g : named_game g → str_from_game g = Ok (game_chars g).
Proof.
  destruct g as [[a b] [c d]]. intros (Ha & Hb & Hc & Hd). simpl in *.
  unfold str_from_game. rewrite !name_char_of by done. done.
Qed.

Lemma strs_from_round_named round :
  Forall named_game round → strs_from_round round = Ok (game_chars <$> round).
Proof.
  induction 1 as [|g round Hg _ IH]; [done|].
  cbn [strs_from_round]. rewrite str_from_game_named, IH by done. done.
Qed.

Lemma game_chars_inj g1 g2 rest1 rest2 :
  named_game g1 → named_game g2 →
  (game_chars g1 +:+ rest1)%string = (game_chars g2 +:+ rest2)%string →
  g1 = g2 ∧ rest1 = rest2.
Proof.
  destruct g1 as [[a1 b1] [c1 d1]], g2 as [[a2 b2] [c2 d2]].
  intros (Ha1 & Hb1 & Hc1 & Hd1) (Ha2 & Hb2 & Hc2 & Hd2). simpl in *.
  unfold game_chars. simpl. intros [= Ha Hb Hc Hd Hrest].
  apply char_of_inj in Ha, Hb, Hc, Hd; [|done..]. by subst.
Qed.

Lemma join_game_chars_inj round1 round2 :
  Forall named_game round1 → Forall named_game round2 →
  join " | " (game_chars <$> round1) = join " | " (game_chars <$> round2) →
  round1 = round2.
Proof.
  intros H1. revert round2.
  induction H1 as [|g1 rest1 Hg1 Hrest1 IH]; intros round2 H2 Heq.
  - destruct H2 as [|g2 rest2 Hg2 Hr2]; [done|].
    destruct g2 as [[? ?] [? ?]], rest2; done.
  - destruct H2 as [|g2 rest2 Hg2 Hr2].
    { destruct g1 as [[? ?] [? ?]], rest1; done. }
    assert (∀ g (rest : list Game),
      join " | " (game_chars <$> g :: rest)
      = (game_chars g +:+ match rest with
                          | [] => ""
                          | _ => " | " +:+ join " | " (game_chars <$> rest)
                          end)%string) as Hjoin.
    { intros g [|g' rest]; simpl; [|done].
      by destruct g as [[? ?] [? ?]]. }
    rewrite !Hjoin in Heq.
    apply game_chars_inj in Heq as [-> Htail]; [|done..].
    f_equal. apply IH; [done|].
    destruct rest1 as [|x1 r1], rest2 as [|x2 r2]; try done.
    by injection Htail.
Qed.

(** X23: [str_from_round] writes different rounds differently: two rounds
    of players from 0 to 35 with the same string are the same round. *)
Theorem str_from_round_injective round1 round2 :
  Forall named_game round1 → Forall named_game round2 →
  str_from_round round1 = str_from_round round2 → round1 = round2.
Proof.
  intros H1 H2. unfold str_from_round.
  rewrite !strs_from_round_named by done. cbn [mbind result_bind].
  intros [= Heq]. by apply join_game_chars_inj.
Qed.

Lemma str_from_round_injective_witness :
  Forall named_game [((1, 2), (3, 4)); ((5, 6), (7, 8))] ∧
  str_from_round [((1, 2), (3, 4)); ((5, 6), (7, 8))]
    = str_from_round [((1, 2), (3, 4)); ((5, 6), (7, 8))] ∧
  [((1, 2), (3, 4)); ((5, 6), (7, 8))] = [((1, 2), (3, 4)); ((5, 6), (7, 8))].
Proof.
  assert (Forall named_game [((1, 2), (3, 4)); ((5, 6), (7, 8))]) as Hnamed
    by (apply (bool_decide_unpack _); vm_compute; exact I).
  split; [exact Hnamed|]. split; [vm_compute; reflexivity|].
  apply (str_from_round_injective _ _ Hnamed); [exact Hnamed|].
  vm_compute. reflexivity.
Defined.

(** ** Composition of the pipeline *)

Lemma players_list_concat {A} (pl : A → gset Player) (s : list (list A)) :
  players_list (players_list pl) s = players_list pl (concat s).
Proof.
  unfold players_list. induction s as [|r s IH]; [done|].
  rewrite fmap_cons, union_list_cons, IH. simpl.
  by rewrite fmap_app, union_list_app_L.
Qed.

(** X24: the players of the schedule that [schedule_games] builds are the
    players of the games it was given. *)
Theorem schedule_games_players (games0 : list Game) C :
  players_list (players_list players_game) (schedule_games players_game games0 C)
  = players_list players_game games0.
Proof.
  rewrite players_list_concat. unfold players_list.
  apply union_list_permutation_proper_L; [apply _..|].
  by rewrite (concat_schedule_games players_game C games0).
Qed.

(** X25: for [P >= 0] players the games that [games_from_pairs] makes out
    of [all_pairs(P)] are [P * (P - 1) // 4] in number. *)
Theorem number_of_games_made P games0 :
  0 ≤ P → games_from_pairs (all_pairs P) = Some games0 →
  Z.of_nat (length games0) = (P * (P - 1)) `div` 4.
Proof.
  intros HP Hgames.
  destruct (games_from_pairs_Some _ _ (NoDup_all_pairs P) Hgames)
    as (_ & leftover & Hleft & Hperm).
  pose proof (length_all_pairs P HP) as Hpairs.
  rewrite <-Hperm, length_app, length_partners in Hpairs.
  apply (Z.div_unique _ _ _ (2 * Z.of_nat (length leftover))); lia.
Qed.

Lemma number_of_games_made_witness :
  0 ≤ 6 ∧ ∃ games0, games_from_pairs (all_pairs 6) = Some games0 ∧
    Z.of_nat (length games0) = (6 * (6 - 1)) `div` 4.
Proof.
  split; [lia|]. eexists. split; [vm_compute; reflexivity|].
  apply (number_of_games_made 6); [lia|vm_compute; reflexivity].
Defined.
